(** * Naive string search visualizer (Lab3.py)

    A shallow embedding of the step generator [naive_search_steps], of the
    rendering policy [render_visual] / [status_text] and of the button
    handlers that walk the generated steps, together with the properties
    the specification states about them.

    Python integers are [Z]; a Python [str] is a list of characters; a
    Python list is a [list]; an operation that can raise ([IndexError] on
    a subscript) returns [option], [None] standing for the exception. *)

From Stdlib Require Import ZArith Ascii String DecimalString.
From stdpp Require Import base option list list_numbers gmap strings sorting.

Local Open Scope Z_scope.

(** ** Python primitives *)

Abbreviation str := (list ascii).

(** [len(x)] *)
Definition len {A} (l : list A) : Z := Z.of_nat (length l).

(** [range(k)]: empty when [k <= 0]. *)
Definition range (k : Z) : list Z := seqZ 0 k.

(** [l[i]]: a negative subscript counts from the end, anything outside
    [-len(l) .. len(l)-1] raises. *)
Definition getitem {A} (l : list A) (i : Z) : option A :=
  if bool_decide (0 ≤ i) then l !! Z.to_nat i
  else if bool_decide (- len l ≤ i) then l !! Z.to_nat (len l + i)
  else None.

(** Truth value of a list: non-empty. *)
Definition truthy {A} (l : list A) : bool :=
  match l with [] => false | _ :: _ => true end.

(** ** 1) Algorithm *)

(** One step of the trace (a dict in the source).  [match_] is the source's
    ['match'] key: [None] before a comparison, [Some false] on a mismatch,
    [Some true] on a full match. *)
Module Step.
Record t := mk {
  text_idx : Z;
  pattern_idx : Z;
  shift : Z;
  match_ : option bool;
  found_indices : list Z
}.
End Step.
Export Step.
Abbreviation Step := Step.t.
Abbreviation mkStep := Step.mk.

Global Instance Step_eq_dec : EqDecision Step.
Proof. solve_decision. Defined.

Section generator.
Variables text pattern : str.

(** The [for j in range(m)] loop at shift [i], run on the offsets [js]
    still to visit with the list [steps] built so far.  The result pairs
    the extended list with [true] when the loop left through [break]. *)
Fixpoint inner_loop (i : Z) (js : list Z) (steps : list Step)
    : option (list Step * bool) :=
  match js with
  | [] => Some (steps, false)
  | j :: js' =>
      let steps := steps ++ [mkStep (i + j) j i None []] in
      a ← getitem text (i + j);
      b ← getitem pattern j;
      if bool_decide (a ≠ b)
      then Some (steps ++ [mkStep (i + j) j i (Some false) []], true)
      else inner_loop i js' steps
  end.

(** The [for i in range(n - m + 1)] loop; the [else] clause of the inner
    loop runs when it was not left through [break]. *)
Fixpoint outer_loop (m : Z) (shifts : list Z) (steps : list Step)
    : option (list Step) :=
  match shifts with
  | [] => Some steps
  | i :: shifts' =>
      match inner_loop i (range m) steps with
      | None => None
      | Some (steps, broke) =>
          let steps :=
            if broke then steps
            else steps ++ [mkStep (i + m - 1) (m - 1) i (Some true) [i]] in
          outer_loop m shifts' steps
      end
  end.

Definition naive_search_steps : option (list Step) :=
  let n := len text in
  let m := len pattern in
  let steps := [] in
  if bool_decide (m = 0) || bool_decide (n < m) then Some steps
  else outer_loop m (range (n - m + 1)) steps.
End generator.

(** ** Reference trace of the naive algorithm

    Written from the specification's description of the trace, to be
    compared with [naive_search_steps]. *)

Definition Pending (i j : Z) : Step := mkStep (i + j) j i None [].
Definition Mismatch (i j : Z) : Step := mkStep (i + j) j i (Some false) [].
Definition FullMatch (m i : Z) : Step := mkStep (i + m - 1) (m - 1) i (Some true) [i].

Section reference.
Variables text pattern : str.

(** [text[i+j]] and [pattern[j]] are different characters. *)
Definition differ (i j : Z) : bool :=
  bool_decide (text !! Z.to_nat (i + j) ≠ pattern !! Z.to_nat j).

(** The least offset at which shift [i] fails, if there is one. *)
Definition first_mismatch (i : Z) : option Z :=
  List.find (differ i) (range (len pattern)).

(** The steps of one shift: a [Pending] step per compared offset, closed
    by the [Mismatch] at the first differing offset, or by one
    [FullMatch] when no offset differs. *)
Definition shift_trace (i : Z) : list Step :=
  match first_mismatch i with
  | Some k => (Pending i <$> range (k + 1)) ++ [Mismatch i k]
  | None => (Pending i <$> range (len pattern)) ++ [FullMatch (len pattern) i]
  end.

(** All shifts [0 .. len(text) - len(pattern)], in increasing order. *)
Definition reference_trace : list Step :=
  range (len text - len pattern + 1) ≫= shift_trace.
End reference.

(** The occurrences of [pattern] in [text] found by exhaustive shift
    scanning: the shifts [i] at which the slice [text[i : i+len(pattern)]]
    is [pattern]. *)
Definition slice {A} (l : list A) (lo hi : Z) : list A :=
  take (Z.to_nat (hi - lo)) (drop (Z.to_nat lo) l).

Definition occurrences (text pattern : str) : list Z :=
  filter (λ i, slice text i (i + len pattern) = pattern)
         (range (len text - len pattern + 1)).

(** The kinds of step. *)
Definition is_pending (st : Step) : Prop := match_ st = None.
Definition is_mismatch (st : Step) : Prop := match_ st = Some false.
Definition is_full_match (st : Step) : Prop := match_ st = Some true.

Global Instance is_pending_dec st : Decision (is_pending st).
Proof. unfold is_pending. apply _. Defined.
Global Instance is_mismatch_dec st : Decision (is_mismatch st).
Proof. unfold is_mismatch. apply _. Defined.
Global Instance is_full_match_dec st : Decision (is_full_match st).
Proof. unfold is_full_match. apply _. Defined.

(** The sub-sequence of the steps at shift [sh]. *)
Definition at_shift (sh : Z) (steps : list Step) : list Step :=
  filter (λ st, shift st = sh) steps.

(** A list of offsets that, when not empty, begins with 0. *)
Definition starts_at_zero (l : list Z) : Prop :=
  ∀ x, head l = Some x → x = 0.

(** [shift] never decreases along the sequence. *)
Definition shift_monotone (steps : list Step) : Prop :=
  StronglySorted Z.le (shift <$> steps).

(** Within each shift, the offsets of the Pending and Mismatch steps, read
    as one sequence, increase strictly from 0. *)
Definition offsets_strictly_increasing (steps : list Step) : Prop :=
  ∀ sh,
    let offsets :=
      pattern_idx <$> filter (λ st, ¬ is_full_match st) (at_shift sh steps) in
    StronglySorted Z.lt offsets ∧ starts_at_zero offsets.

(** Within each shift, the offsets of the Mismatch steps alone begin
    with 0. *)
Definition mismatch_offsets_start_at_zero (steps : list Step) : Prop :=
  ∀ sh, starts_at_zero (pattern_idx <$> filter is_mismatch (at_shift sh steps)).

(** Within each shift, the offsets of the Pending steps increase strictly
    from 0, and those of the Pending and Mismatch steps together never
    decrease and begin with 0. *)
Definition offsets_increasing (steps : list Step) : Prop :=
  ∀ sh,
    let pending := pattern_idx <$> filter is_pending (at_shift sh steps) in
    let offsets :=
      pattern_idx <$> filter (λ st, ¬ is_full_match st) (at_shift sh steps) in
    StronglySorted Z.lt pending ∧ starts_at_zero pending ∧
    StronglySorted Z.le offsets ∧ starts_at_zero offsets.

(** ** 2) State helpers *)

(** The keys of [st.session_state] the handlers own.  The [text] and
    [pattern] keys mirror the two input widgets; the handlers read the
    widgets' values, which are passed to them as arguments here. *)
Module session_state.
Record t := mk {
  steps : list Step;
  step_idx : option Z;
  found_indices : list Z;
  started : bool;
  complete : bool
}.
End session_state.

Definition init_state : session_state.t :=
  session_state.mk [] None [] false false.

Definition reset_state (st : session_state.t) : session_state.t :=
  session_state.mk [] None [] false false.

(** ** Text formatting *)

(** [str(z)] for an integer. *)
Definition str_int (z : Z) : string := NilZero.string_of_int (Z.to_int z).

(** [str(l)] for a list of integers, as an f-string prints it. *)
Definition str_list (l : list Z) : string :=
  "[" +:+ String.concat ", " (str_int <$> l) +:+ "]".

Definition dquote : string := String "034"%char EmptyString.
Definition newline : string := String "010"%char EmptyString.

(** [html.escape(ch)] on one character. *)
Definition html_escape (ch : ascii) : string :=
  if bool_decide (ch = "&"%char) then "&amp;"
  else if bool_decide (ch = "<"%char) then "&lt;"
  else if bool_decide (ch = ">"%char) then "&gt;"
  else if bool_decide (ch = "034"%char) then "&quot;"
  else if bool_decide (ch = "'"%char) then "&#x27;"
  else String ch EmptyString.

(** ** 3) Rendering *)

(** One [<div>] of the grid: its classes, its grid row and column and its
    (escaped) content. *)
Record Div := mkDiv {
  classes : list string;
  grid_row : Z;
  grid_column : Z;
  body : string
}.

Definition div_html (d : Div) : string :=
  "<div class=" +:+ dquote +:+ String.concat " " (classes d) +:+ dquote +:+
  " style=" +:+ dquote +:+ "grid-row:" +:+ str_int (grid_row d) +:+
  "; grid-column:" +:+ str_int (grid_column d) +:+ ";" +:+ dquote +:+ ">" +:+
  body d +:+ "</div>".

(** [enumerate(l)] *)
Definition enumerate {A} (l : list A) : list (Z * A) := zip (range (len l)) l.

(** [for k in range(m): positions.add(fi + k)] *)
Definition add_segment (m : Z) (positions : gset Z) (fi : Z) : gset Z :=
  foldl (λ positions k, positions ∪ {[fi + k]}) positions (range m).

Section render.
Variables (text pattern : str) (step : option Step)
          (found_indices_so_far : list Z).

Let n := len text.
Let m := len pattern.

(** Current step details. *)
Definition cur_shift : Z := from_option shift 0 step.
Definition match_status : option bool := step ≫= match_.
Definition cur_text_idx : option Z := text_idx <$> step.
Definition cur_pattern_idx : option Z := pattern_idx <$> step.
Definition step_found : list Z := from_option found_indices [] step.

Definition previously_found_positions : gset Z :=
  foldl (add_segment m) ∅ found_indices_so_far.

(** The subscript [step_found[0]] sits behind the test of [step_found]. *)
Definition current_match_positions : option (gset Z) :=
  if bool_decide (match_status = Some true) && truthy step_found then
    fi ← getitem step_found 0;
    Some (add_segment m ∅ fi)
  else Some ∅.

(** Row 1: pattern index labels (shifted). *)
Definition pattern_labels : list Div :=
  foldl (λ html_parts i,
           let col := cur_shift + i + 1 in
           if bool_decide (1 ≤ col ≤ n)
           then html_parts ++ [mkDiv ["label"] 1 col (str_int i)]
           else html_parts)
        [] (range m).

(** The classes of the pattern box at offset [i]. *)
Definition pattern_box_classes (i : Z) : list string :=
  let classes := ["char"] in
  if bool_decide (match_status = None)
     && bool_decide (Some i = cur_pattern_idx)
  then classes ++ ["comparing"]
  else if bool_decide (match_status = Some false)
          && bool_decide (Some i = cur_pattern_idx)
  then classes ++ ["mismatch"]
  else if bool_decide (match_status = Some true)
  then classes ++ ["match"]
  else classes.

(** Row 2: pattern boxes. *)
Definition pattern_boxes : list Div :=
  foldl (λ html_parts '(i, ch),
           let col := cur_shift + i + 1 in
           if negb (bool_decide (1 ≤ col ≤ n)) then html_parts
           else html_parts ++
                [mkDiv (pattern_box_classes i) 2 col (html_escape ch)])
        [] (enumerate pattern).

(** The classes of the text box at column [i]: previously found (blue),
    overridden by the highlight of the current step. *)
Definition text_box_classes (current : gset Z) (i : Z) : list string :=
  let classes := ["char"] in
  let classes :=
    if bool_decide (i ∈ previously_found_positions)
    then classes ++ ["found"] else classes in
  if bool_decide (match_status = None)
     && bool_decide (Some i = cur_text_idx)
  then ["char"; "comparing"]
  else if bool_decide (match_status = Some false)
          && bool_decide (Some i = cur_text_idx)
  then ["char"; "mismatch"]
  else if bool_decide (match_status = Some true)
          && bool_decide (i ∈ current)
  then ["char"; "match"]
  else classes.

(** Row 3: text boxes. *)
Definition text_boxes (current : gset Z) : list Div :=
  foldl (λ html_parts '(i, ch),
           html_parts ++
           [mkDiv (text_box_classes current i) 3 (i + 1) (html_escape ch)])
        [] (enumerate text).

(** Row 4: text index labels. *)
Definition text_labels : list Div :=
  foldl (λ html_parts i, html_parts ++ [mkDiv ["label"] 4 (i + 1) (str_int i)])
        [] (range n).

Definition render_visual : option string :=
  current ← current_match_positions;
  let grid_cols := n in
  let html_parts :=
    [ "<div class=" +:+ dquote +:+ "wrapper" +:+ dquote +:+ ">";
      "<div class=" +:+ dquote +:+ "grid" +:+ dquote +:+ " style=" +:+ dquote +:+
      "grid-template-columns: repeat(" +:+ str_int grid_cols +:+
      ", var(--box-size));" +:+ dquote +:+ ">" ]
    ++ (div_html <$> pattern_labels)
    ++ (div_html <$> pattern_boxes)
    ++ (div_html <$> text_boxes current)
    ++ (div_html <$> text_labels)
    ++ [ "</div></div>" ] in
  Some (String.concat newline html_parts).
End render.

(** The second and third parameters ([found_indices], [pattern_len] in the
    source) are not used by the body. *)
Definition status_text (step : option Step) (found_so_far : list Z)
    (pattern_len : Z) : option string :=
  match step with
  | None => Some "Ready. Press 'Next Step' to begin comparison."
  | Some step =>
      let shift := shift step in
      let t := text_idx step in
      let p := pattern_idx step in
      match match_ step with
      | None =>
          Some ("Shifting pattern by " +:+ str_int shift +:+
                ". Comparing pattern[" +:+ str_int p +:+ "] with text[" +:+
                str_int t +:+ "].")
      | Some false =>
          Some ("Mismatch at text[" +:+ str_int t +:+ "] and pattern[" +:+
                str_int p +:+ "]. Shifting pattern.")
      | Some true =>
          idx ← getitem (found_indices step) 0;
          Some ("Pattern found at index " +:+ str_int idx +:+
                "! Press 'Next Step' to continue search.")
      end
  end.

(** ** Highlighting policy

    Written from the specification's rules for the highlight of a cell, to
    be compared with the class lists [render_visual] builds. *)

Module Highlight.
Inductive t := Default | Comparing | Mismatch | Match | Found.
End Highlight.

(** The class list that shows a highlight. *)
Definition highlight_classes (h : Highlight.t) : list string :=
  match h with
  | Highlight.Default => ["char"]
  | Highlight.Comparing => ["char"; "comparing"]
  | Highlight.Mismatch => ["char"; "mismatch"]
  | Highlight.Match => ["char"; "match"]
  | Highlight.Found => ["char"; "found"]
  end.

(** Text column [k] lies in the match of length [m] found at [f]. *)
Definition in_match (m k f : Z) : Prop := f ≤ k < f + m.

(** Text column [k] lies in the match [step] reports. *)
Definition in_current_match (m : Z) (step : Step) (k : Z) : Prop :=
  match Step.found_indices step with
  | f :: _ => in_match m k f
  | [] => False
  end.

Global Instance in_match_dec m k f : Decision (in_match m k f).
Proof. unfold in_match. apply _. Defined.
Global Instance in_current_match_dec m step k :
  Decision (in_current_match m step k).
Proof. unfold in_current_match. destruct (Step.found_indices step); apply _. Defined.

(** Highlight of the pattern cell at local offset [offset]. *)
Definition pattern_highlight (step : Step) (offset : Z) : Highlight.t :=
  match match_ step with
  | None =>
      if decide (offset = pattern_idx step)
      then Highlight.Comparing else Highlight.Default
  | Some false =>
      if decide (offset = pattern_idx step)
      then Highlight.Mismatch else Highlight.Default
  | Some true => Highlight.Match
  end.

(** Highlight of the text cell at column [k], given the matches found so
    far. *)
Definition text_highlight (m : Z) (step : Step) (found_so_far : list Z)
    (k : Z) : Highlight.t :=
  let older :=
    if decide (Exists (in_match m k) found_so_far)
    then Highlight.Found else Highlight.Default in
  match match_ step with
  | None => if decide (k = text_idx step) then Highlight.Comparing else older
  | Some false => if decide (k = text_idx step) then Highlight.Mismatch else older
  | Some true => if decide (in_current_match m step k) then Highlight.Match else older
  end.

(** The pattern cell at [offset] is drawn when its column is one of the
    text's. *)
Definition pattern_cell (n : Z) (step : Step) (cell : Z * ascii) : option Div :=
  let '(offset, ch) := cell in
  if decide (0 ≤ shift step + offset < n)
  then Some (mkDiv (highlight_classes (pattern_highlight step offset)) 2
               (shift step + offset + 1) (html_escape ch))
  else None.

Definition text_cell (m : Z) (step : Step) (found_so_far : list Z)
    (cell : Z * ascii) : Div :=
  let '(k, ch) := cell in
  mkDiv (highlight_classes (text_highlight m step found_so_far k)) 3
    (k + 1) (html_escape ch).

(** ** 4) UI *)

(** Messages the page shows: [st.error], [st.success], [st.warning],
    [st.info], [st.caption]. *)
Inductive alert :=
| st_error (msg : string)
| st_success (msg : string)
| st_warning (msg : string)
| st_info (msg : string)
| st_caption (msg : string).

Import session_state.

(** The body run when "Start Search" is pressed, on the values of the two
    input widgets.  It returns the session and the messages it showed. *)
Definition start_search (text pattern : str) (st : session_state.t)
    : option (session_state.t * list alert) :=
  if negb (truthy text) || negb (truthy pattern) then
    Some (st, [st_error "Text and Pattern cannot be empty."])
  else if bool_decide (len pattern > len text) then
    Some (st, [st_error "Pattern cannot be longer than the text."])
  else
    new_steps ← naive_search_steps text pattern;
    Some (session_state.mk new_steps (Some (-1)) [] true false, []).

Definition disabled_next (st : session_state.t) : bool :=
  negb (started st) || complete st.

(** The body run when "Next Step" is pressed; [None] when the subscript
    [steps[step_idx]] raises. *)
Definition next_step (st : session_state.t) : option session_state.t :=
  match step_idx st with
  | None => Some st
  | Some idx =>
      if bool_decide (idx < len (steps st) - 1) then
        let idx := idx + 1 in
        step ← getitem (steps st) idx;
        if bool_decide (match_ step = Some true) && truthy (Step.found_indices step)
        then Some (session_state.mk (steps st) (Some idx)
                     (found_indices st ++ Step.found_indices step)
                     (started st) (complete st))
        else Some (session_state.mk (steps st) (Some idx) (found_indices st)
                     (started st) (complete st))
      else
        Some (session_state.mk (steps st) (step_idx st) (found_indices st)
                (started st) true)
  end.

(** The advance command: a disabled button cannot be pressed, the run then
    leaves the session as it is. *)
Definition advance (st : session_state.t) : option session_state.t :=
  if disabled_next st then Some st else next_step st.

(** [k] advance commands in a row. *)
Fixpoint advance_n (k : nat) (st : session_state.t) : option session_state.t :=
  match k with
  | O => Some st
  | S k' => st' ← advance st; advance_n k' st'
  end.

(** The step handed to the renderer.  With [started] set and no cursor
    the source's comparison [0 <= None] raises; [started] is only ever set
    together with a cursor, so no run reaches such a session, and the
    model hands no step to the renderer there. *)
Definition current_step (st : session_state.t) : option Step :=
  if started st then
    match step_idx st with
    | Some idx =>
        if bool_decide (idx = -1) then None
        else if bool_decide (0 ≤ idx < len (steps st)) then steps st !! Z.to_nat idx
        else None
    | None => None
    end
  else None.

(** The completion summary below the status line. *)
Definition completion_summary (st : session_state.t) : list alert :=
  if negb (started st) then []
  else
    match step_idx st with
    | Some idx =>
        if bool_decide (idx >= len (steps st) - 1) then
          if negb (complete st) then []
          else
            [ if truthy (found_indices st)
              then st_success ("Search complete. Pattern found at indices: "
                               +:+ str_list (found_indices st))
              else st_warning "Search complete. Pattern not found.";
              st_caption "Press **Reset** to start again." ]
        else []
    | None => []
    end.

(** Everything below the controls: the status line and, once the search
    is complete, the summary. *)
Definition status_area (pattern : str) (st : session_state.t)
    : option (list alert) :=
  if negb (started st) then
    Some [st_info "Enter text and pattern, then press **Start Search**."]
  else
    line ← status_text (current_step st) (found_indices st) (len pattern);
    Some (st_caption line :: completion_summary st).

(** A full walk: the start command, then advance commands until the
    session is complete ([fuel] bounds their number). *)
Fixpoint advance_until_complete (fuel : nat) (st : session_state.t)
    : option session_state.t :=
  match fuel with
  | O => Some st
  | S fuel' =>
      if complete st then Some st
      else st' ← advance st; advance_until_complete fuel' st'
  end.

Definition walk_through (text pattern : str) : option session_state.t :=
  '(st, _) ← start_search text pattern init_state;
  advance_until_complete (S (length (steps st))) st.

(** A string literal as a Python [str]. *)
Definition chars (x : string) : str := list_ascii_of_string x.

(** ** One run of the script

    Streamlit runs the script from top to bottom after every interaction;
    at most one button reports a press in a run.  A run takes the values
    of the two input widgets and the button pressed, runs that button's
    body on the session and then draws the page from the session. *)

Inductive button := no_button | start_button | next_button | reset_button.

(** What a run shows: the messages of the button's body, the grid and the
    status area. *)
Record page := mkPage {
  handler_alerts : list alert;
  html_vis : string;
  status : list alert
}.

Definition run (text_input pattern_input : str) (pressed : button)
    (st : session_state.t) : option (session_state.t * page) :=
  match
    match pressed with
    | start_button => start_search text_input pattern_input st
    | next_button => st' ← advance st; Some (st', [])
    | reset_button => Some (reset_state st, [])
    | no_button => Some (st, [])
    end
  with
  | None => None
  | Some (st, alerts) =>
      html_vis ← render_visual text_input pattern_input (current_step st)
                   (found_indices st);
      status ← status_area pattern_input st;
      Some (st, mkPage alerts html_vis status)
  end.

(** The sessions the page can be in: the initial one and those a run
    leads to. *)
Inductive reachable : session_state.t → Prop :=
| reachable_init : reachable init_state
| reachable_run st text_input pattern_input pressed st' pg :
    reachable st →
    run text_input pattern_input pressed st = Some (st', pg) →
    reachable st'.

(** The shape of a session: not started, with nothing in it; or started on
    the steps of an accepted text and pattern, with the cursor between the
    initial position and the last step, [found_indices] holding what the
    FullMatch steps up to the cursor carry, and [complete] set only with
    the cursor on the last step. *)
Definition consistent (st : session_state.t) : Prop :=
  match step_idx st with
  | None =>
      steps st = [] ∧ found_indices st = [] ∧
      started st = false ∧ complete st = false
  | Some idx =>
      started st = true ∧
      -1 ≤ idx ≤ len (steps st) - 1 ∧
      (∃ text pattern,
         1 ≤ len pattern ≤ len text ∧
         naive_search_steps text pattern = Some (steps st)) ∧
      found_indices st =
        filter is_full_match (take (Z.to_nat (idx + 1)) (steps st))
        ≫= Step.found_indices ∧
      (complete st = true → idx = len (steps st) - 1)
  end.

(** Every step of the sequence that is not Pending comes right after a
    Pending step with the same indices. *)
Definition preceded_by_pending (steps : list Step) : Prop :=
  ∀ (k : nat) (st : Step),
    steps !! k = Some st → ¬ is_pending st →
    ∃ k', k = S k' ∧
          steps !! k' =
          Some (mkStep (text_idx st) (pattern_idx st) (shift st) None []).

(** ** The page of a list of grid elements

    The text [render_visual] returns for the elements [divs] of a grid of
    [grid_cols] columns: the two opening tags, one line per element, the
    closing tags. *)
Definition page_of_rows (grid_cols : Z) (divs : list Div) : string :=
  String.concat newline
    ([ "<div class=" +:+ dquote +:+ "wrapper" +:+ dquote +:+ ">";
       "<div class=" +:+ dquote +:+ "grid" +:+ dquote +:+ " style=" +:+ dquote +:+
       "grid-template-columns: repeat(" +:+ str_int grid_cols +:+
       ", var(--box-size));" +:+ dquote +:+ ">" ]
     ++ (div_html <$> divs)
     ++ [ "</div></div>" ]).

(** ** Calls of the generator, as a relation

    [returns text pattern steps]: a call [naive_search_steps(text, pattern)]
    runs to its [return] and hands back [steps].  One rule per path through
    the body: the early [return], and for each loop the exhausted range,
    the [break] and the next iteration.  A call that raises has no
    derivation. *)
Section calls.
Variables text pattern : str.



End calls.

(** * Properties *)

(** ** The scenarios of the specification *)

Example scenario_three_occurrences :
  (found_indices <$> walk_through (chars "AABAACAADAABAABA") (chars "AABA"))
  = Some [0; 9; 12].
Proof. vm_compute. reflexivity. Qed.

Example scenario_overlapping :
  (found_indices <$> walk_through (chars "AAAA") (chars "AA")) = Some [0; 1; 2].
Proof. vm_compute. reflexivity. Qed.

Example scenario_not_found :
  (walk_through (chars "ABC") (chars "XYZ") ≫= status_area (chars "XYZ")) =
  Some [ st_caption "Mismatch at text[0] and pattern[0]. Shifting pattern.";
         st_warning "Search complete. Pattern not found.";
         st_caption "Press **Reset** to start again." ].
Proof. vm_compute. reflexivity. Qed.

Example scenario_single_character :
  naive_search_steps (chars "A") (chars "A") =
  Some [ mkStep 0 0 0 None []; mkStep 0 0 0 (Some true) [0] ].
Proof. vm_compute. reflexivity. Qed.

(** ** Subscripts and ranges *)

Lemma getitem_in_range {A} (l : list A) (i : Z) :
  0 ≤ i < len l → ∃ x, getitem l i = Some x ∧ l !! Z.to_nat i = Some x.
Proof.
  intros Hi. unfold getitem. rewrite bool_decide_eq_true_2 by lia.
  assert (Hlt : (Z.to_nat i < length l)%nat) by (unfold len in Hi; lia).
  destruct (lookup_lt_is_Some_2 l (Z.to_nat i) Hlt) as [x Hx]. eauto.
Qed.

Lemma StronglySorted_filter_keep {A} (R : relation A) (P : A → Prop)
    `{!∀ x, Decision (P x)} (l : list A) :
  StronglySorted R l → StronglySorted R (filter P l).
Proof.
  induction 1 as [|x l Hl IH Hx]; [constructor|].
  rewrite filter_cons. destruct (decide (P x)); [|done].
  constructor; [done|].
  apply Forall_forall. intros y [_ Hy]%list_elem_of_filter.
  by eapply Forall_forall in Hx.
Qed.

Lemma seqZ_sorted (m c : Z) : StronglySorted Z.lt (seqZ m c).
Proof.
  destruct (decide (c ≤ 0)) as [Hc|Hc].
  { rewrite seqZ_nil by done. constructor. }
  rewrite <- (Z2Nat.id c) by lia. generalize (Z.to_nat c). clear c Hc.
  intros c. revert m. induction c as [|c IH]; intros m.
  - rewrite seqZ_nil by lia. constructor.
  - rewrite seqZ_cons by lia.
    replace (Z.pred (Z.of_nat (S c))) with (Z.of_nat c) by lia.
    constructor; [apply IH|]. apply Forall_seqZ. lia.
Qed.

(** ** The loops of the generator *)

Section loops.
Variables text pattern : str.

Lemma inner_loop_seqZ (i : Z) :
  0 ≤ i → i + len pattern ≤ len text →
  ∀ (c : nat) (j0 : Z) (acc : list Step),
    0 ≤ j0 → j0 + Z.of_nat c ≤ len pattern →
    inner_loop text pattern i (seqZ j0 (Z.of_nat c)) acc =
    Some (match List.find (differ text pattern i) (seqZ j0 (Z.of_nat c)) with
          | Some k =>
              (acc ++ (Pending i <$> seqZ j0 (k - j0 + 1)) ++ [Mismatch i k], true)
          | None => (acc ++ (Pending i <$> seqZ j0 (Z.of_nat c)), false)
          end).
Proof.
  intros Hi Him c. induction c as [|c IH]; intros j0 acc Hj0 Hc.
  - rewrite seqZ_nil by lia. simpl. by rewrite app_nil_r.
  - rewrite seqZ_cons by lia.
    replace (Z.pred (Z.of_nat (S c))) with (Z.of_nat c) by lia.
    cbn [inner_loop List.find].
    destruct (getitem_in_range text (i + j0)) as (a & Ha & Ha'); [lia|].
    destruct (getitem_in_range pattern j0) as (b & Hb & Hb'); [lia|].
    rewrite Ha, Hb. cbn [mbind option_bind].
    unfold differ at 1. rewrite Ha', Hb'.
    destruct (decide (a = b)) as [->|Hab].
    + rewrite bool_decide_eq_false_2 by naive_solver.
      rewrite bool_decide_eq_false_2 by naive_solver.
      rewrite IH by lia.
      destruct (List.find _ _) as [k|] eqn:Hfind.
      * apply List.find_some in Hfind as [Hin _].
        apply list_elem_of_In, elem_of_seqZ in Hin.
        rewrite (seqZ_cons j0 (k - j0 + 1)) by lia.
        replace (Z.pred (k - j0 + 1)) with (k - Z.succ j0 + 1) by lia.
        by rewrite fmap_cons, <- !app_assoc.
      * by rewrite fmap_cons, <- !app_assoc.
    + rewrite bool_decide_eq_true_2 by done.
      rewrite bool_decide_eq_true_2 by congruence.
      replace (j0 - j0 + 1) with 1 by lia.
      rewrite (seqZ_cons _ 1) by lia. rewrite seqZ_nil by lia.
      by rewrite <- app_assoc.
Qed.

Lemma inner_loop_range (i : Z) (acc : list Step) :
  0 ≤ i → i + len pattern ≤ len text →
  inner_loop text pattern i (range (len pattern)) acc =
  Some (match first_mismatch text pattern i with
        | Some k => (acc ++ (Pending i <$> range (k + 1)) ++ [Mismatch i k], true)
        | None => (acc ++ (Pending i <$> range (len pattern)), false)
        end).
Proof.
  intros Hi Him.
  pose proof (inner_loop_seqZ i Hi Him (length pattern) 0 acc) as H.
  change (Z.of_nat (length pattern)) with (len pattern) in H.
  unfold range, first_mismatch. rewrite H by lia.
  destruct (List.find _ _) as [k|]; [|done].
  by replace (k - 0 + 1) with (k + 1) by lia.
Qed.

Lemma outer_loop_trace (shifts : list Z) :
  Forall (λ i, 0 ≤ i ∧ i + len pattern ≤ len text) shifts →
  ∀ acc, outer_loop text pattern (len pattern) shifts acc =
         Some (acc ++ (shifts ≫= shift_trace text pattern)).
Proof.
  induction 1 as [|i shifts [Hi Him] _ IH]; intros acc; simpl.
  - by rewrite app_nil_r.
  - rewrite inner_loop_range by done. unfold shift_trace.
    destruct (first_mismatch text pattern i) as [k|]; rewrite IH;
      by rewrite <- !app_assoc.
Qed.

(** For every input the generator returns, and what it returns is the
    reference trace whenever the pattern is not empty. *)
Lemma naive_search_steps_eq :
  naive_search_steps text pattern =
  Some (if bool_decide (len pattern = 0) then []
        else reference_trace text pattern).
Proof.
  unfold naive_search_steps, reference_trace.
  destruct (decide (len pattern = 0)) as [Hm|Hm].
  { by rewrite !(bool_decide_eq_true_2 (len pattern = 0)) by done. }
  rewrite !(bool_decide_eq_false_2 (len pattern = 0)) by done.
  destruct (decide (len text < len pattern)) as [Hn|Hn].
  { rewrite bool_decide_eq_true_2 by done. simpl.
    unfold range. by rewrite seqZ_nil by lia. }
  rewrite bool_decide_eq_false_2 by done. simpl.
  rewrite outer_loop_trace; [done|].
  apply Forall_seqZ. lia.
Qed.
End loops.

(** C5: with an empty pattern, or a pattern longer than the text, the
    generator returns the empty sequence. *)
Theorem naive_search_steps_invalid (text pattern : str) :
  len pattern = 0 ∨ len text < len pattern →
  naive_search_steps text pattern = Some [].
Proof.
  intros H. unfold naive_search_steps.
  destruct H; [rewrite (bool_decide_eq_true_2 (len pattern = 0)) by done; done|].
  rewrite (bool_decide_eq_true_2 (len text < len pattern)) by done.
  by rewrite orb_true_r.
Qed.

Lemma naive_search_steps_invalid_witness :
  (len (chars "AB") = 0 ∨ len (chars "A") < len (chars "AB")) ∧
  naive_search_steps (chars "A") (chars "AB") = Some [].
Proof.
  assert (H : len (chars "AB") = 0 ∨ len (chars "A") < len (chars "AB"))
    by (right; unfold len; simpl; lia).
  split; [exact H|]. exact (naive_search_steps_invalid _ _ H).
Defined.

(** C1: for [1 <= len(pattern) <= len(text)] the generator returns exactly
    the reference trace of the naive algorithm: per shift in increasing
    order, a Pending step per compared offset, a Mismatch step at the first
    differing offset, or one FullMatch step when no offset differs. *)
Theorem naive_search_steps_reference (text pattern : str) :
  1 ≤ len pattern ≤ len text →
  naive_search_steps text pattern = Some (reference_trace text pattern).
Proof.
  intros H. rewrite naive_search_steps_eq.
  by rewrite bool_decide_eq_false_2 by lia.
Qed.

Lemma naive_search_steps_reference_witness :
  1 ≤ len (chars "AA") ≤ len (chars "AAAA") ∧
  naive_search_steps (chars "AAAA") (chars "AA") =
  Some (reference_trace (chars "AAAA") (chars "AA")).
Proof.
  assert (H : 1 ≤ len (chars "AA") ≤ len (chars "AAAA"))
    by (unfold len; simpl; lia).
  split; [exact H|]. exact (naive_search_steps_reference _ _ H).
Defined.

(** ** Full matches and occurrences *)

Lemma filter_all {A} (P : A → Prop) `{!∀ x, Decision (P x)} (l : list A) :
  Forall P l → filter P l = l.
Proof.
  induction 1 as [|x l Hx _ IH]; [done|].
  by rewrite filter_cons_True, IH.
Qed.

Lemma filter_none {A} (P : A → Prop) `{!∀ x, Decision (P x)} (l : list A) :
  Forall (λ x, ¬ P x) l → filter P l = [].
Proof.
  induction 1 as [|x l Hx _ IH]; [done|].
  by rewrite filter_cons_False, IH.
Qed.

Lemma filter_fmap_none {A B} (P : B → Prop) `{!∀ x, Decision (P x)}
    (f : A → B) (l : list A) :
  (∀ x, ¬ P (f x)) → filter P (f <$> l) = [].
Proof.
  intros Hf. induction l as [|x l IH]; [done|].
  rewrite fmap_cons, filter_cons_False by apply Hf. done.
Qed.

Lemma filter_fmap_all {A B} (P : B → Prop) `{!∀ x, Decision (P x)}
    (f : A → B) (l : list A) :
  (∀ x, P (f x)) → filter P (f <$> l) = f <$> l.
Proof.
  intros Hf. induction l as [|x l IH]; [done|].
  rewrite fmap_cons, filter_cons_True by apply Hf. by rewrite IH.
Qed.

Lemma filter_bind {A B} (P : B → Prop) `{!∀ x, Decision (P x)}
    (f : A → list B) (l : list A) :
  filter P (l ≫= f) = l ≫= (λ x, filter P (f x)).
Proof.
  induction l as [|x l IH]; [done|].
  by rewrite !bind_cons, filter_app, IH.
Qed.

Section matches.
Variables text pattern : str.

Lemma first_mismatch_Some (i k : Z) :
  first_mismatch text pattern i = Some k →
  0 ≤ k < len pattern ∧ differ text pattern i k = true.
Proof.
  unfold first_mismatch. intros [Hin Hk]%List.find_some.
  apply list_elem_of_In, elem_of_seqZ in Hin. split; [lia|done].
Qed.

Lemma first_mismatch_None (i : Z) :
  first_mismatch text pattern i = None ↔
  ∀ j, 0 ≤ j < len pattern →
       text !! Z.to_nat (i + j) = pattern !! Z.to_nat j.
Proof.
  unfold first_mismatch. split.
  - intros Hnone j Hj.
    assert (Hd : differ text pattern i j = false).
    { apply (List.find_none _ _ Hnone), list_elem_of_In, elem_of_seqZ. lia. }
    unfold differ in Hd. apply bool_decide_eq_false in Hd.
    by destruct (decide (text !! Z.to_nat (i + j) = pattern !! Z.to_nat j)).
  - intros Hall. destruct (List.find _ _) as [k|] eqn:Hfind; [|done].
    apply first_mismatch_Some in Hfind as [Hk Hd].
    unfold differ in Hd. apply bool_decide_eq_true in Hd.
    by specialize (Hall k Hk).
Qed.

(** No offset of shift [i] differs exactly when the slice of the text at
    [i] is the pattern. *)
Lemma first_mismatch_slice (i : Z) :
  0 ≤ i → i + len pattern ≤ len text →
  first_mismatch text pattern i = None ↔
  slice text i (i + len pattern) = pattern.
Proof.
  intros Hi Him. rewrite first_mismatch_None. unfold slice.
  replace (i + len pattern - i) with (len pattern) by lia.
  unfold len in *. rewrite Nat2Z.id. split.
  - intros Hall. apply list_eq. intros j.
    destruct (decide (j < length pattern)%nat) as [Hj|Hj].
    + rewrite lookup_take_lt, lookup_drop by done.
      specialize (Hall (Z.of_nat j)). rewrite Nat2Z.id in Hall.
      rewrite <- Hall by lia. f_equal. lia.
    + rewrite lookup_take_ge by lia. symmetry. apply lookup_ge_None. lia.
  - intros Heq j Hj.
    assert (Hlk : take (length pattern) (drop (Z.to_nat i) text) !! Z.to_nat j
                  = pattern !! Z.to_nat j) by by rewrite Heq.
    rewrite <- Hlk, lookup_take_lt, lookup_drop by lia. f_equal. lia.
Qed.

Lemma shift_trace_full (i : Z) :
  filter is_full_match (shift_trace text pattern i) =
  match first_mismatch text pattern i with
  | Some _ => []
  | None => [FullMatch (len pattern) i]
  end.
Proof.
  unfold shift_trace.
  destruct (first_mismatch text pattern i); rewrite filter_app;
    by rewrite filter_fmap_none.
Qed.

Lemma full_matches_of_shifts (shifts : list Z) :
  Forall (λ i, 0 ≤ i ∧ i + len pattern ≤ len text) shifts →
  filter is_full_match (shifts ≫= shift_trace text pattern) =
  FullMatch (len pattern) <$>
    filter (λ i, slice text i (i + len pattern) = pattern) shifts.
Proof.
  rewrite filter_bind.
  induction 1 as [|i shifts [Hi Him] _ IH]; [done|].
  rewrite bind_cons, IH, shift_trace_full.
  pose proof (first_mismatch_slice i Hi Him) as Hiff.
  destruct (first_mismatch text pattern i).
  - rewrite filter_cons_False; [done|]. intros Heq. by apply Hiff in Heq.
  - rewrite filter_cons_True by by apply Hiff. done.
Qed.

Lemma reference_trace_full :
  filter is_full_match (reference_trace text pattern) =
  FullMatch (len pattern) <$> occurrences text pattern.
Proof.
  unfold reference_trace, occurrences. apply full_matches_of_shifts.
  apply Forall_seqZ. lia.
Qed.

Lemma occurrences_sorted : StronglySorted Z.lt (occurrences text pattern).
Proof.
  apply StronglySorted_filter_keep, seqZ_sorted.
Qed.
End matches.

(** C2: for [1 <= len(pattern) <= len(text)] the FullMatch steps of the
    generated sequence are as many as the shifts [i] in
    [0 .. len(text)-len(pattern)] at which the slice
    [text[i : i+len(pattern)]] is the pattern (overlapping ones included),
    and they carry exactly those shifts, one each, in increasing order. *)
Theorem full_match_steps_are_occurrences (text pattern : str) :
  1 ≤ len pattern ≤ len text →
  ∃ steps,
    naive_search_steps text pattern = Some steps ∧
    length (filter is_full_match steps) = length (occurrences text pattern) ∧
    Step.found_indices <$> filter is_full_match steps =
      (λ i, [i]) <$> occurrences text pattern ∧
    filter is_full_match steps ≫= Step.found_indices = occurrences text pattern ∧
    StronglySorted Z.lt (occurrences text pattern) ∧
    ∀ i, i ∈ occurrences text pattern ↔
         0 ≤ i ≤ len text - len pattern ∧
         slice text i (i + len pattern) = pattern.
Proof.
  intros H. exists (reference_trace text pattern).
  rewrite reference_trace_full, length_fmap, <- list_fmap_compose.
  split_and!.
  - rewrite naive_search_steps_eq. by rewrite bool_decide_eq_false_2 by lia.
  - done.
  - done.
  - rewrite list_fmap_bind. clear H.
    induction (occurrences text pattern) as [|i l IH]; [done|].
    rewrite bind_cons, IH. done.
  - apply occurrences_sorted.
  - intros i. unfold occurrences, range.
    rewrite list_elem_of_filter, elem_of_seqZ.
    split; intros [? ?]; split; (lia || done).
Qed.

Lemma full_match_steps_are_occurrences_witness :
  1 ≤ len (chars "AA") ≤ len (chars "AAAA") ∧
  ∃ steps,
    naive_search_steps (chars "AAAA") (chars "AA") = Some steps ∧
    length (filter is_full_match steps) = 3%nat ∧
    filter is_full_match steps ≫= Step.found_indices = [0; 1; 2].
Proof.
  assert (H : 1 ≤ len (chars "AA") ≤ len (chars "AAAA"))
    by (unfold len; simpl; lia).
  split; [exact H|].
  destruct (full_match_steps_are_occurrences _ _ H)
    as (steps & Hgen & Hcount & _ & Hfound & _).
  exists steps. split; [exact Hgen|]. split.
  - rewrite Hcount. vm_compute. reflexivity.
  - rewrite Hfound. vm_compute. reflexivity.
Defined.

(** ** Monotonicity of the trace *)

Lemma starts_at_zero_range (c : Z) : starts_at_zero (range c).
Proof.
  intros x. unfold range. destruct (decide (0 < c)) as [Hc|Hc].
  - rewrite seqZ_cons by done. simpl. congruence.
  - by rewrite seqZ_nil by lia.
Qed.

Lemma starts_at_zero_app (l k : list Z) :
  l ≠ [] → starts_at_zero l → starts_at_zero (l ++ k).
Proof. destruct l; [done|]. intros _ H x. apply H. Qed.

Lemma sorted_lt_le (l : list Z) :
  StronglySorted Z.lt l → StronglySorted Z.le l.
Proof.
  induction 1 as [|x l _ IH Hx]; constructor; [done|].
  eapply Forall_impl; [exact Hx|]. simpl. lia.
Qed.

Lemma sorted_constant (i : Z) (l : list Step) :
  Forall (λ st, shift st = i) l → StronglySorted Z.le (shift <$> l).
Proof.
  induction 1 as [|st l Hst Hl IH]; [constructor|].
  rewrite fmap_cons. constructor; [done|].
  rewrite Forall_fmap. eapply Forall_impl; [exact Hl|]. simpl. lia.
Qed.

Section monotone.
Variables text pattern : str.

Lemma shift_trace_shift (i : Z) :
  Forall (λ st, shift st = i) (shift_trace text pattern i).
Proof.
  unfold shift_trace. destruct (first_mismatch text pattern i);
    rewrite Forall_app, Forall_fmap, Forall_singleton;
    (split; [by apply Forall_true|done]).
Qed.

Lemma trace_shift_elem (shifts : list Z) (st : Step) :
  st ∈ shifts ≫= shift_trace text pattern → shift st ∈ shifts.
Proof.
  rewrite list_elem_of_bind. intros (i & Hst & Hi).
  pose proof (shift_trace_shift i) as Hall.
  rewrite Forall_forall in Hall. by rewrite (Hall _ Hst).
Qed.

Lemma trace_shift_sorted (shifts : list Z) :
  StronglySorted Z.lt shifts →
  shift_monotone (shifts ≫= shift_trace text pattern).
Proof.
  unfold shift_monotone.
  induction 1 as [|i shifts Hsorted IH Hi]; [constructor|].
  rewrite bind_cons, fmap_app. apply StronglySorted_app. split_and!.
  - intros x1 x2 (st1 & -> & H1)%list_elem_of_fmap
                 (st2 & -> & H2)%list_elem_of_fmap.
    pose proof (shift_trace_shift i) as Hall.
    rewrite Forall_forall in Hall. rewrite (Hall _ H1).
    apply trace_shift_elem in H2.
    rewrite Forall_forall in Hi. specialize (Hi _ H2). lia.
  - apply (sorted_constant i), shift_trace_shift.
  - exact IH.
Qed.

Lemma at_shift_trace (sh : Z) (shifts : list Z) :
  NoDup shifts →
  at_shift sh (shifts ≫= shift_trace text pattern) =
  if decide (sh ∈ shifts) then shift_trace text pattern sh else [].
Proof.
  unfold at_shift. rewrite filter_bind.
  induction 1 as [|i shifts Hi Hnd IH]; [done|].
  rewrite bind_cons, IH. pose proof (shift_trace_shift i) as Hall.
  destruct (decide (i = sh)) as [->|Hne].
  - rewrite (decide_True (P := sh ∈ sh :: shifts)) by apply list_elem_of_here.
    rewrite (decide_False (P := sh ∈ shifts)) by done.
    rewrite app_nil_r. by apply filter_all.
  - replace (filter _ (shift_trace text pattern i)) with (@nil Step).
    + simpl. destruct (decide (sh ∈ shifts)).
      * by rewrite decide_True by by apply list_elem_of_further.
      * rewrite decide_False; [done|]. rewrite elem_of_cons. intros [?|?]; done.
    + symmetry. apply filter_none.
      eapply Forall_impl; [exact Hall|]. simpl. congruence.
Qed.

Lemma shift_trace_offsets (sh : Z) :
  let pending := pattern_idx <$> filter is_pending (shift_trace text pattern sh) in
  let offsets :=
    pattern_idx <$> filter (λ st, ¬ is_full_match st) (shift_trace text pattern sh) in
  StronglySorted Z.lt pending ∧ starts_at_zero pending ∧
  StronglySorted Z.le offsets ∧ starts_at_zero offsets.
Proof.
  assert (Hid : ∀ l : list Z, pattern_idx <$> (Pending sh <$> l) = l).
  { intros l. rewrite <- list_fmap_compose. apply list_fmap_id. }
  assert (Hle : ∀ c, StronglySorted Z.le (range c)).
  { intros c. apply sorted_lt_le, seqZ_sorted. }
  unfold shift_trace.
  destruct (first_mismatch text pattern sh) as [k|] eqn:Hk; simpl.
  - apply first_mismatch_Some in Hk as [Hk _].
    rewrite !filter_app, !filter_fmap_all by done.
    rewrite (filter_cons_False is_pending) by done.
    rewrite filter_cons_True by done.
    rewrite !filter_nil, app_nil_r, fmap_app, !Hid. simpl.
    split_and!.
    + apply seqZ_sorted.
    + apply starts_at_zero_range.
    + apply StronglySorted_app. split_and!.
      * intros x1 x2 Hx1%elem_of_seqZ Hx2%list_elem_of_singleton. lia.
      * apply Hle.
      * repeat constructor.
    + apply starts_at_zero_app; [|apply starts_at_zero_range].
      unfold range. rewrite seqZ_cons by lia. done.
  - rewrite !filter_app, !filter_fmap_all by done.
    rewrite (filter_cons_False is_pending) by done.
    rewrite filter_cons_False by (intros H; by apply H).
    rewrite !filter_nil, app_nil_r, !Hid.
    split_and!; auto using starts_at_zero_range. apply seqZ_sorted.
Qed.

Lemma reference_trace_monotone :
  shift_monotone (reference_trace text pattern) ∧
  offsets_increasing (reference_trace text pattern).
Proof.
  split.
  - apply trace_shift_sorted, seqZ_sorted.
  - intros sh. unfold reference_trace.
    rewrite at_shift_trace by apply NoDup_seqZ.
    destruct (decide _); [apply shift_trace_offsets|].
    simpl. repeat split; (constructor || done).
Qed.
End monotone.

Lemma preceded_by_pending_app (l1 l2 : list Step) :
  preceded_by_pending l1 → preceded_by_pending l2 →
  preceded_by_pending (l1 ++ l2).
Proof.
  intros H1 H2 k st Hk Hnp.
  destruct (decide (k < length l1)%nat) as [Hlt|Hge].
  - rewrite lookup_app_l in Hk by done.
    destruct (H1 k st Hk Hnp) as (k' & -> & Hk').
    exists k'. split; [done|]. by rewrite lookup_app_l by lia.
  - rewrite lookup_app_r in Hk by lia.
    destruct (H2 _ st Hk Hnp) as (k' & Heq & Hk').
    exists (length l1 + k')%nat. split; [lia|].
    rewrite lookup_app_r by lia. rewrite <- Hk'. f_equal. lia.
Qed.

Section preceded.
Variables text pattern : str.

(** In a shift's steps, whatever is not Pending comes right after a
    Pending step with the same indices. *)
Lemma shift_trace_preceded (i : Z) (k : nat) (st : Step) :
  1 ≤ len pattern →
  shift_trace text pattern i !! k = Some st →
  ¬ is_pending st →
  ∃ k', k = S k' ∧
        shift_trace text pattern i !! k' =
        Some (mkStep (text_idx st) (pattern_idx st) (shift st) None []).
Proof.
  intros Hm. unfold shift_trace, range.
  destruct (first_mismatch text pattern i) as [j|] eqn:Hj.
  - apply first_mismatch_Some in Hj as [Hj _].
    intros Hk Hnp.
    assert (Hlen : length (Pending i <$> seqZ 0 (j + 1)) = S (Z.to_nat j)).
    { rewrite length_fmap, length_seqZ. lia. }
    destruct (decide (k < S (Z.to_nat j))%nat) as [Hlt|Hge].
    + rewrite lookup_app_l in Hk by lia.
      apply list_lookup_fmap_Some in Hk as (j' & -> & _). by destruct Hnp.
    + rewrite lookup_app_r in Hk by lia. rewrite Hlen in Hk.
      destruct (k - S (Z.to_nat j))%nat as [|d] eqn:Hd; [|done].
      injection Hk as <-. exists (Z.to_nat j). split; [lia|].
      rewrite lookup_app_l by lia. rewrite list_lookup_fmap.
      rewrite lookup_seqZ_lt by lia. simpl. by rewrite Z2Nat.id by lia.
  - intros Hk Hnp.
    assert (Hlen : length (Pending i <$> seqZ 0 (len pattern))
                   = length pattern).
    { rewrite length_fmap, length_seqZ. unfold len. lia. }
    destruct (decide (k < length pattern)%nat) as [Hlt|Hge].
    + rewrite lookup_app_l in Hk by lia.
      apply list_lookup_fmap_Some in Hk as (j' & -> & _). by destruct Hnp.
    + rewrite lookup_app_r in Hk by lia. rewrite Hlen in Hk.
      destruct (k - length pattern)%nat as [|d] eqn:Hd; [|done].
      injection Hk as <-. unfold len in Hm.
      exists (length pattern - 1)%nat. split; [lia|].
      rewrite lookup_app_l by lia. rewrite list_lookup_fmap.
      rewrite lookup_seqZ_lt by (unfold len; lia). simpl.
      unfold Pending, len. do 3 f_equal; lia.
Qed.

Lemma generated_preceded :
  preceded_by_pending
    (if bool_decide (len pattern = 0) then []
     else reference_trace text pattern).
Proof.
  destruct (decide (len pattern = 0)) as [Hm|Hm].
  { rewrite bool_decide_eq_true_2 by done. by intros k st ?. }
  rewrite bool_decide_eq_false_2 by done. unfold reference_trace.
  pose proof (Nat2Z.is_nonneg (length pattern)) as Hlen.
  change (0 ≤ len pattern) in Hlen.
  induction (range (len text - len pattern + 1)) as [|i l IH].
  - by intros k st ?.
  - rewrite bind_cons. apply preceded_by_pending_app; [|exact IH].
    intros k st. apply shift_trace_preceded. lia.
Qed.
End preceded.

(** C3 (as amended): along the sequence the generator returns, [shift]
    never decreases; within the steps of one shift, the offsets of the
    Pending steps increase strictly from 0, and the offsets of the Pending
    and Mismatch steps together never decrease and begin with 0; and every
    Mismatch step comes right after a Pending step whose [text_idx],
    [pattern_idx] and [shift] it repeats. *)
Theorem naive_search_steps_monotone (text pattern : str) :
  ∃ steps,
    naive_search_steps text pattern = Some steps ∧
    shift_monotone steps ∧ offsets_increasing steps ∧
    preceded_by_pending steps.
Proof.
  eexists. split; [apply naive_search_steps_eq|].
  split_and!; [| |apply generated_preceded].
  - destruct (bool_decide (len pattern = 0)); [constructor|].
    apply reference_trace_monotone.
  - destruct (bool_decide (len pattern = 0));
      [|apply reference_trace_monotone].
    intros sh. simpl. repeat split; (constructor || done).
Qed.

(** C3 (as stated) fails: at shift 0 of "AAB" against "AB" the Pending and
    Mismatch steps have the offsets 0, 1, 1, and the only Mismatch step
    has offset 1. *)
Lemma offsets_not_strictly_increasing :
  ∃ steps,
    naive_search_steps (chars "AAB") (chars "AB") = Some steps ∧
    ¬ offsets_strictly_increasing steps ∧
    ¬ mismatch_offsets_start_at_zero steps.
Proof.
  eexists. split; [vm_compute; reflexivity|]. split.
  - intros H. destruct (H 0) as [Hs _].
    match type of Hs with
    | StronglySorted _ ?l =>
        let l' := eval vm_compute in l in change l with l' in Hs
    end.
    apply StronglySorted_cons in Hs as [_ Hs].
    apply StronglySorted_cons in Hs as [Hs _].
    apply Forall_cons in Hs as [Hs _]. lia.
  - intros H. specialize (H 0 1). vm_compute in H. by specialize (H eq_refl).
Qed.

(** ** Shape of the generated steps *)

Section shape.
Variables text pattern : str.

Lemma shift_trace_found (i : Z) :
  Forall (λ st, (is_full_match st → Step.found_indices st = [shift st]) ∧
                (is_pending st ∨ is_mismatch st → Step.found_indices st = []))
         (shift_trace text pattern i).
Proof.
  unfold shift_trace. destruct (first_mismatch text pattern i);
    rewrite Forall_app, Forall_fmap, Forall_singleton;
    (split; [apply Forall_true; intros j|]); simpl;
    (split; [try done|try done; intros [?|?]; done]).
Qed.

Lemma generated_found (steps : list Step) :
  naive_search_steps text pattern = Some steps →
  Forall (λ st, (is_full_match st → Step.found_indices st = [shift st]) ∧
                (is_pending st ∨ is_mismatch st → Step.found_indices st = []))
         steps.
Proof.
  rewrite naive_search_steps_eq. intros [= <-].
  destruct (bool_decide (len pattern = 0)); [constructor|].
  unfold reference_trace. apply Forall_forall.
  intros st (i & Hst & _)%list_elem_of_bind.
  pose proof (shift_trace_found i) as Hall.
  rewrite Forall_forall in Hall. by apply Hall.
Qed.
End shape.

Lemma current_match_positions_total (pattern : str) (step : option Step) :
  is_Some (current_match_positions pattern step).
Proof.
  unfold current_match_positions.
  destruct (bool_decide _); [|by eexists]. simpl.
  destruct (step_found step) as [|f l]; [by eexists|].
  simpl. by eexists.
Qed.

(** C10: in every step the generator produces, a [match] of [True] comes
    with [found_indices = [shift]] and a [match] of [None] or [False] with
    an empty [found_indices]; so the subscript [found_indices[0]] of
    [status_text] and of [render_visual] never raises on a generated
    step. *)
Theorem generated_steps_found_indices (text pattern : str) :
  ∃ steps,
    naive_search_steps text pattern = Some steps ∧
    Forall (λ st,
              (match_ st = Some true → Step.found_indices st = [shift st]) ∧
              (match_ st = None ∨ match_ st = Some false →
               Step.found_indices st = []) ∧
              (match_ st = Some true →
               getitem (Step.found_indices st) 0 = Some (shift st)) ∧
              (∀ found m, is_Some (status_text (Some st) found m)) ∧
              (∀ txt pat found, is_Some (render_visual txt pat (Some st) found)))
           steps.
Proof.
  eexists. split; [apply naive_search_steps_eq|].
  eapply Forall_impl; [by apply (generated_found text pattern), naive_search_steps_eq|].
  intros st [Hfull Hother]. simpl. split_and!; [done|done|..].
  - intros Hm. by rewrite (Hfull Hm).
  - intros found m. unfold status_text.
    destruct (match_ st) as [[]|] eqn:Hm; [|by eexists..].
    rewrite (Hfull Hm). by eexists.
  - intros txt pat found. unfold render_visual.
    destruct (current_match_positions_total pat (Some st)) as [cur ->].
    by eexists.
Qed.

(** ** Calls of the generator *)

Section calls_of_the_generator.
Variables text pattern : str.





End calls_of_the_generator.



(** ** The step walker *)

(** What one press of "Next Step" adds to [found_indices] on entering
    [step]. *)
Lemma found_of_step (step : Step) :
  (if bool_decide (match_ step = Some true) && truthy (Step.found_indices step)
   then Step.found_indices step else []) =
  filter is_full_match [step] ≫= Step.found_indices.
Proof.
  rewrite filter_cons, filter_nil. unfold is_full_match.
  destruct (decide (match_ step = Some true)) as [Hm|Hm].
  - rewrite bool_decide_eq_true_2 by done. simpl. rewrite app_nil_r.
    by destruct (Step.found_indices step).
  - by rewrite bool_decide_eq_false_2 by done.
Qed.

(** From the cursor [k0 - 1] of a running session, [k] presses move the
    cursor to [k0 + k - 1] and collect the matches of the steps entered. *)
Lemma advance_n_running (all : list Step) (k : nat) :
  ∀ (k0 : nat) (found : list Z),
    (k0 + k ≤ length all)%nat →
    advance_n k (session_state.mk all (Some (Z.of_nat k0 - 1)) found true false) =
    Some (session_state.mk all (Some (Z.of_nat (k0 + k) - 1))
            (found ++ (filter is_full_match (take k (drop k0 all))
                       ≫= Step.found_indices))
            true false).
Proof.
  induction k as [|k IH]; intros k0 found Hk.
  - simpl. by rewrite Nat.add_0_r, app_nil_r.
  - cbn [advance_n]. unfold advance, disabled_next, next_step. simpl.
    rewrite bool_decide_eq_true_2 by (unfold len; lia).
    replace (Z.of_nat k0 - 1 + 1) with (Z.of_nat k0) by lia.
    destruct (getitem_in_range all (Z.of_nat k0)) as (step & Hget & Hlk);
      [unfold len; lia|].
    rewrite Nat2Z.id in Hlk. rewrite Hget. simpl.
    assert (Hdrop : drop k0 all = step :: drop (S k0) all).
    { by apply drop_S. }
    rewrite Hdrop. cbn [take]. 
    change (step :: take k (drop (S k0) all))
      with ([step] ++ take k (drop (S k0) all)).
    rewrite filter_app, bind_app, <- found_of_step, app_assoc.
    replace (k0 + S k)%nat with (S k0 + k)%nat by lia.
    rewrite <- (IH (S k0)) by lia.
    replace (Z.of_nat (S k0) - 1) with (Z.of_nat k0) by lia.
    destruct (bool_decide _ && truthy _); simpl; by rewrite ?app_nil_r.
Qed.

(** C4: for a session the start command has just opened, [k] advance
    commands from the initial cursor, with [k <= len(steps)], leave the
    cursor at [k - 1], with the [found_indices] of the FullMatch steps
    among the first [k] collected in order; after [len(steps)] of them
    [found_indices] lists what the FullMatch steps of the whole generated
    sequence carry. *)
Theorem walker_invariant (text pattern : str) (st0 st1 : session_state.t)
    (k : nat) :
  start_search text pattern st0 = Some (st1, []) →
  Z.of_nat k ≤ len (steps st1) →
  naive_search_steps text pattern = Some (steps st1) ∧
  step_idx st1 = Some (-1) ∧
  ∃ stk,
    advance_n k st1 = Some stk ∧
    step_idx stk = Some (Z.of_nat k - 1) ∧
    steps stk = steps st1 ∧
    found_indices stk =
      filter is_full_match (take k (steps st1)) ≫= Step.found_indices ∧
    (Z.of_nat k = len (steps st1) →
     found_indices stk =
       filter is_full_match (steps st1) ≫= Step.found_indices).
Proof.
  unfold start_search. intros Hstart Hk.
  destruct (negb (truthy text) || negb (truthy pattern)); [done|].
  destruct (bool_decide (len pattern > len text)); [done|].
  destruct (naive_search_steps text pattern) as [gen|]; [|done].
  simpl in Hstart. injection Hstart as <-. simpl in *.
  split; [done|]. split; [done|].
  pose proof (advance_n_running gen k 0 []) as Hrun.
  simpl in Hrun. rewrite drop_0 in Hrun.
  eexists. split; [apply Hrun; unfold len in Hk; lia|]. simpl.
  split_and!; [done..|].
  intros Hfull. rewrite take_ge; [done|]. unfold len in Hfull. lia.
Qed.

Lemma walker_invariant_witness :
  ∃ st1 stk,
    start_search (chars "AAAA") (chars "AA") init_state = Some (st1, []) ∧
    Z.of_nat 9 ≤ len (steps st1) ∧
    advance_n 9 st1 = Some stk ∧
    step_idx stk = Some 8 ∧
    found_indices stk = [0; 1; 2].
Proof.
  assert (Hs : start_search (chars "AAAA") (chars "AA") init_state =
               Some (session_state.mk
                       [Pending 0 0; Pending 0 1; FullMatch 2 0;
                        Pending 1 0; Pending 1 1; FullMatch 2 1;
                        Pending 2 0; Pending 2 1; FullMatch 2 2]
                       (Some (-1)) [] true false, []))
    by (vm_compute; reflexivity).
  assert (Hk : Z.of_nat 9 ≤ len [Pending 0 0; Pending 0 1; FullMatch 2 0;
                                 Pending 1 0; Pending 1 1; FullMatch 2 1;
                                 Pending 2 0; Pending 2 1; FullMatch 2 2])
    by (unfold len; simpl; lia).
  destruct (walker_invariant _ _ _ _ 9%nat Hs Hk)
    as (_ & _ & stk & Hadv & Hidx & _ & Hfound & _).
  eexists. exists stk. split; [exact Hs|]. split; [exact Hk|].
  split; [exact Hadv|]. split; [exact Hidx|].
  rewrite Hfound. vm_compute. reflexivity.
Defined.

(** C6: a start command with an empty text, an empty pattern or a pattern
    longer than the text is answered with an error message and returns the
    session as it was: [steps], [step_idx], [found_indices], [started] and
    [complete] keep their values. *)
Theorem start_search_rejects (text pattern : str) (st : session_state.t) :
  text = [] ∨ pattern = [] ∨ len pattern > len text →
  ∃ st' msg,
    start_search text pattern st = Some (st', [st_error msg]) ∧
    msg = (if bool_decide (text = [] ∨ pattern = [])
           then "Text and Pattern cannot be empty."
           else "Pattern cannot be longer than the text.")%string ∧
    st' = st ∧
    steps st' = steps st ∧ step_idx st' = step_idx st ∧
    found_indices st' = found_indices st ∧
    started st' = started st ∧ complete st' = complete st.
Proof.
  intros H. exists st. eexists. split_and!; [|reflexivity|done..].
  unfold start_search.
  destruct (decide (text = [] ∨ pattern = [])) as [He|He].
  - rewrite (bool_decide_eq_true_2 (_ ∨ _)) by done.
    destruct He as [-> | ->]; [done|]. by destruct text.
  - rewrite (bool_decide_eq_false_2 (_ ∨ _)) by done.
    destruct text as [|a text]; [by destruct He; left|].
    destruct pattern as [|b pattern]; [by destruct He; right|]. simpl.
    destruct H as [?|[?|H]]; [done..|].
    by rewrite bool_decide_eq_true_2.
Qed.

Lemma start_search_rejects_witness :
  (chars "AB" = [] ∨ chars "ABC" = [] ∨ len (chars "ABC") > len (chars "AB")) ∧
  start_search (chars "AB") (chars "ABC") init_state =
  Some (init_state, [st_error "Pattern cannot be longer than the text."]).
Proof.
  assert (H : chars "AB" = [] ∨ chars "ABC" = [] ∨
              len (chars "ABC") > len (chars "AB"))
    by (right; right; unfold len; simpl; lia).
  split; [exact H|].
  destruct (start_search_rejects _ _ init_state H)
    as (st' & msg & Hstart & Hmsg & Hst & _).
  rewrite Hstart, Hmsg, Hst. reflexivity.
Defined.

(** C7: with the cursor on the last step of a started session, one more
    advance command sets [complete] and leaves the cursor and
    [found_indices] alone; the summary is then shown, the list of found
    indices when there is one and the "not found" message otherwise; and no
    session that is not complete shows a summary. *)
Theorem advance_past_last_step (st : session_state.t) :
  started st = true →
  step_idx st = Some (len (steps st) - 1) →
  ∃ st',
    advance st = Some st' ∧
    complete st' = true ∧
    started st' = true ∧
    step_idx st' = step_idx st ∧
    found_indices st' = found_indices st ∧
    steps st' = steps st ∧
    completion_summary st' =
      [ match found_indices st with
        | [] => st_warning "Search complete. Pattern not found."
        | _ :: _ =>
            st_success ("Search complete. Pattern found at indices: "
                        +:+ str_list (found_indices st))
        end;
        st_caption "Press **Reset** to start again." ] ∧
    (complete st = false → completion_summary st = []) ∧
    (∀ st0, completion_summary st0 ≠ [] → complete st0 = true).
Proof.
  intros Hstarted Hidx.
  exists (session_state.mk (steps st) (step_idx st) (found_indices st)
            (started st) true).
  split_and!; try done.
  - unfold advance, disabled_next, next_step. rewrite Hstarted, Hidx. simpl.
    rewrite bool_decide_eq_false_2 by lia.
    destruct st as [? ? ? ? []]; simpl in *; by subst.
  - unfold completion_summary. simpl. rewrite Hstarted, Hidx. simpl.
    rewrite bool_decide_eq_true_2 by lia.
    by destruct (found_indices st).
  - intros Hc. unfold completion_summary. rewrite Hstarted, Hidx, Hc. simpl.
    by rewrite bool_decide_eq_true_2 by lia.
  - intros st0. unfold completion_summary.
    destruct (started st0), (step_idx st0), (complete st0); simpl; try done;
      by destruct (bool_decide _).
Qed.

Lemma advance_past_last_step_witness :
  let st := session_state.mk [Pending 0 0; FullMatch 1 0] (Some 1) [0] true false in
  started st = true ∧
  step_idx st = Some (len (steps st) - 1) ∧
  ∃ st',
    advance st = Some st' ∧ complete st' = true ∧
    completion_summary st' =
      [ st_success "Search complete. Pattern found at indices: [0]";
        st_caption "Press **Reset** to start again." ].
Proof.
  intros st.
  assert (H1 : started st = true) by reflexivity.
  assert (H2 : step_idx st = Some (len (steps st) - 1)) by reflexivity.
  split; [exact H1|]. split; [exact H2|].
  destruct (advance_past_last_step st H1 H2)
    as (st' & Hadv & Hc & _ & _ & _ & _ & Hsum & _).
  exists st'. split; [exact Hadv|]. split; [exact Hc|]. exact Hsum.
Defined.

(** ** Rendering *)

Lemma elem_of_add_segment (m fi k : Z) (positions : gset Z) :
  k ∈ add_segment m positions fi ↔ k ∈ positions ∨ in_match m k fi.
Proof.
  unfold add_segment, in_match, range.
  transitivity (k ∈ positions ∨ ∃ j, j ∈ seqZ 0 m ∧ k = fi + j).
  - generalize (seqZ 0 m). intros l. revert positions.
    induction l as [|j l IH]; intros positions; simpl.
    + split; [by left|]. intros [?|(j & Hj & _)]; [done|]. by apply elem_of_nil in Hj.
    + rewrite IH, elem_of_union, elem_of_singleton.
      setoid_rewrite elem_of_cons.
      split; [intros [[?|?]|(j0 & ? & ?)] | intros [?|(j0 & [->|?] & ?)]];
        eauto 6.
  - setoid_rewrite elem_of_seqZ. split; intros [?|H]; auto; right.
    + destruct H as (j & Hj & ->). lia.
    + exists (k - fi). lia.
Qed.

Lemma elem_of_previously_found (pattern : str) (found : list Z) (k : Z) :
  k ∈ previously_found_positions pattern found ↔
  Exists (in_match (len pattern) k) found.
Proof.
  unfold previously_found_positions.
  assert (H : ∀ positions : gset Z,
             k ∈ foldl (add_segment (len pattern)) positions found ↔
             k ∈ positions ∨ Exists (in_match (len pattern) k) found).
  { induction found as [|f found IH]; intros positions; simpl.
    - rewrite Exists_nil. tauto.
    - rewrite IH, elem_of_add_segment, Exists_cons. tauto. }
  rewrite H, elem_of_empty. tauto.
Qed.

Lemma elem_of_current_match (pattern : str) (step : Step) (current : gset Z)
    (k : Z) :
  current_match_positions pattern (Some step) = Some current →
  match_ step = Some true →
  k ∈ current ↔ in_current_match (len pattern) step k.
Proof.
  unfold current_match_positions, in_current_match. simpl.
  intros Hcur Hm. rewrite Hm in Hcur. simpl in Hcur.
  destruct (Step.found_indices step) as [|f l]; simpl in Hcur.
  - injection Hcur as <-. by rewrite elem_of_empty.
  - injection Hcur as <-. rewrite elem_of_add_segment, elem_of_empty. tauto.
Qed.

Lemma highlight_classes_inj (h1 h2 : Highlight.t) :
  highlight_classes h1 = highlight_classes h2 → h1 = h2.
Proof. by destruct h1, h2. Qed.

Section rendering.
Variables (text pattern : str) (step : Step) (found : list Z).

Lemma pattern_box_classes_highlight (i : Z) :
  pattern_box_classes (Some step) i =
  highlight_classes (pattern_highlight step i).
Proof.
  unfold pattern_box_classes, pattern_highlight, match_status,
    cur_pattern_idx. simpl.
  destruct (match_ step) as [[]|]; simpl; [done|..];
    destruct (decide (i = pattern_idx step)) as [->|Hne];
    rewrite ?bool_decide_eq_true_2 by done;
    rewrite ?bool_decide_eq_false_2 by congruence; done.
Qed.

Lemma text_box_classes_highlight (current : gset Z) (i : Z) :
  current_match_positions pattern (Some step) = Some current →
  text_box_classes pattern (Some step) found current i =
  highlight_classes (text_highlight (len pattern) step found i).
Proof.
  intros Hcur.
  pose proof (elem_of_previously_found pattern found i) as Hprev.
  pose proof (elem_of_current_match pattern step current i Hcur) as Hnow.
  unfold text_box_classes, text_highlight, match_status, cur_text_idx.
  simpl.
  assert (Holder :
    (if bool_decide (i ∈ previously_found_positions pattern found)
     then ["char"; "found"] else ["char"]) =
    highlight_classes
      (if decide (Exists (in_match (len pattern) i) found)
       then Highlight.Found else Highlight.Default)).
  { destruct (decide (Exists _ _)) as [He|He].
    - by rewrite bool_decide_eq_true_2 by by apply Hprev.
    - rewrite bool_decide_eq_false_2; [done|]. by rewrite Hprev. }
  rewrite Holder. clear Holder Hprev.
  destruct (match_ step) as [[]|]; simpl.
  - specialize (Hnow eq_refl).
    destruct (decide (in_current_match _ _ _)) as [Hin|Hin].
    + by rewrite bool_decide_eq_true_2 by by apply Hnow.
    + rewrite bool_decide_eq_false_2; [done|]. by rewrite Hnow.
  - destruct (decide (i = text_idx step)) as [->|Hne].
    + by rewrite bool_decide_eq_true_2.
    + by rewrite bool_decide_eq_false_2 by congruence.
  - destruct (decide (i = text_idx step)) as [->|Hne].
    + by rewrite bool_decide_eq_true_2.
    + by rewrite bool_decide_eq_false_2 by congruence.
Qed.

Lemma pattern_boxes_cells :
  pattern_boxes text pattern (Some step) =
  omap (pattern_cell (len text) step) (enumerate pattern).
Proof.
  unfold pattern_boxes.
  assert (H : ∀ (l : list (Z * ascii)) (acc : list Div),
    foldl (λ html_parts '(i, ch),
             let col := cur_shift (Some step) + i + 1 in
             if negb (bool_decide (1 ≤ col ≤ len text)) then html_parts
             else html_parts ++
                  [mkDiv (pattern_box_classes (Some step) i) 2 col
                     (html_escape ch)])
          acc l = acc ++ omap (pattern_cell (len text) step) l).
  { induction l as [|[i ch] l IH]; intros acc; simpl.
    - by rewrite app_nil_r.
    - rewrite IH. unfold pattern_cell at 2, cur_shift. simpl.
      destruct (decide (0 ≤ shift step + i < len text)) as [Hc|Hc].
      + rewrite bool_decide_eq_true_2 by lia. simpl.
        by rewrite <- app_assoc, pattern_box_classes_highlight.
      + by rewrite bool_decide_eq_false_2 by lia. }
  apply H.
Qed.

Lemma text_boxes_cells (current : gset Z) :
  current_match_positions pattern (Some step) = Some current →
  text_boxes text pattern (Some step) found current =
  text_cell (len pattern) step found <$> enumerate text.
Proof.
  intros Hcur. unfold text_boxes.
  assert (H : ∀ (l : list (Z * ascii)) (acc : list Div),
    foldl (λ html_parts '(i, ch),
             html_parts ++
             [mkDiv (text_box_classes pattern (Some step) found current i)
                3 (i + 1) (html_escape ch)])
          acc l = acc ++ (text_cell (len pattern) step found <$> l)).
  { induction l as [|[i ch] l IH]; intros acc; simpl.
    - by rewrite app_nil_r.
    - by rewrite IH, <- app_assoc, text_box_classes_highlight. }
  apply H.
Qed.
End rendering.

Lemma lookup_enumerate {A} (l : list A) (i : nat) :
  enumerate l !! i = (λ x, (Z.of_nat i, x)) <$> l !! i.
Proof.
  unfold enumerate, range, len.
  destruct (l !! i) as [x|] eqn:Hx; simpl.
  - apply lookup_zip_Some. split; [|done].
    apply lookup_seqZ. apply lookup_lt_Some in Hx. lia.
  - apply lookup_zip_None. by right.
Qed.

(** What [render_visual] returns: the page of its four rows, in order. *)
Lemma render_visual_rows (text pattern : str) (step : option Step)
    (found : list Z) :
  ∃ current,
    current_match_positions pattern step = Some current ∧
    render_visual text pattern step found =
    Some (page_of_rows (len text)
            (pattern_labels text pattern step ++
             pattern_boxes text pattern step ++
             text_boxes text pattern step found current ++
             text_labels text)).
Proof.
  destruct (current_match_positions_total pattern step) as [current Hcur].
  exists current. split; [done|].
  unfold render_visual, page_of_rows. rewrite Hcur. simpl.
  by rewrite !fmap_app, <- !app_assoc.
Qed.

(** C8: when a step is rendered, the page [render_visual] returns is made
    of the pattern labels, the pattern row, the text row and the text
    labels, where the pattern row holds, for each pattern
    offset whose column [shift + offset] is one of the text's, a cell
    highlighted Comparing (Pending step, offset [pattern_idx]), Mismatch
    (Mismatch step, offset [pattern_idx]), Match (FullMatch step, every
    offset) or Default; the text row holds a cell per text column,
    highlighted Comparing or Mismatch at [text_idx] on a Pending or
    Mismatch step, Match inside the match a FullMatch step reports, else
    Found inside a match found before, else Default; and each cell shows
    exactly one highlight. *)
Theorem render_visual_highlights (text pattern : str) (step : Step)
    (found : list Z) :
  pattern_boxes text pattern (Some step) =
    omap (pattern_cell (len text) step) (enumerate pattern) ∧
  ∃ current,
    current_match_positions pattern (Some step) = Some current ∧
    text_boxes text pattern (Some step) found current =
      text_cell (len pattern) step found <$> enumerate text ∧
    (∀ (k : nat) (ch : ascii),
       text !! k = Some ch →
       text_boxes text pattern (Some step) found current !! k =
       Some (mkDiv (highlight_classes
                      (text_highlight (len pattern) step found (Z.of_nat k)))
               3 (Z.of_nat k + 1) (html_escape ch))) ∧
    Forall (λ d, ∃ h, classes d = highlight_classes h ∧
                      ∀ h', classes d = highlight_classes h' → h' = h)
           (pattern_boxes text pattern (Some step) ++
            text_boxes text pattern (Some step) found current) ∧
    render_visual text pattern (Some step) found =
    Some (page_of_rows (len text)
            (pattern_labels text pattern (Some step) ++
             omap (pattern_cell (len text) step) (enumerate pattern) ++
             (text_cell (len pattern) step found <$> enumerate text) ++
             text_labels text)).
Proof.
  split; [apply pattern_boxes_cells|].
  destruct (render_visual_rows text pattern (Some step) found)
    as (current & Hcur & Hpage).
  exists current. split; [done|].
  rewrite Hpage.
  rewrite pattern_boxes_cells, (text_boxes_cells _ _ _ _ _ Hcur).
  split_and!; [done| | |done].
  - intros k ch Hk. by rewrite list_lookup_fmap, lookup_enumerate, Hk.
  - apply Forall_app. split; apply Forall_forall; intros d.
    + intros ([i ch] & _ & Hd)%list_elem_of_omap. unfold pattern_cell in Hd.
      destruct (decide _); [|done]. injection Hd as <-. simpl.
      eexists. split; [done|]. intros h' Hh'. by apply highlight_classes_inj.
    + intros ([i ch] & -> & _)%list_elem_of_fmap. simpl.
      eexists. split; [done|]. intros h' Hh'. by apply highlight_classes_inj.
Qed.

(** * Further properties of the generator *)

Lemma find_seqZ_first (f : Z → bool) (c : nat) :
  ∀ j0 k, List.find f (seqZ j0 (Z.of_nat c)) = Some k →
          ∀ j, j0 ≤ j < k → f j = false.
Proof.
  induction c as [|c IH]; intros j0 k.
  - by rewrite seqZ_nil by lia.
  - rewrite seqZ_cons by lia.
    replace (Z.pred (Z.of_nat (S c))) with (Z.of_nat c) by lia.
    simpl. destruct (f j0) eqn:Hf.
    + intros [= <-] j Hj. lia.
    + intros Hfind j Hj. destruct (decide (j = j0)) as [->|Hne]; [done|].
      apply (IH _ _ Hfind). lia.
Qed.

Lemma length_bind_bounds {A B} (f : A → list B) (lo hi : nat) (l : list A) :
  Forall (λ x, (lo ≤ length (f x) ≤ hi)%nat) l →
  (lo * length l ≤ length (l ≫= f) ≤ hi * length l)%nat.
Proof.
  induction 1 as [|x l Hx _ IH]; [simpl; lia|].
  rewrite bind_cons, length_app, length_cons, !Nat.mul_succ_r. lia.
Qed.

Section steps_of_a_trace.
Variables text pattern : str.

Lemma first_mismatch_least (i k : Z) :
  first_mismatch text pattern i = Some k →
  ∀ j, 0 ≤ j < k →
       text !! Z.to_nat (i + j) = pattern !! Z.to_nat j.
Proof.
  unfold first_mismatch, range, len. intros Hfind j Hj.
  pose proof (find_seqZ_first _ _ _ _ Hfind j Hj) as Hd.
  unfold differ in Hd. apply bool_decide_eq_false in Hd.
  by destruct (decide (text !! Z.to_nat (i + j) = pattern !! Z.to_nat j)).
Qed.

(** The steps of shift [i], one by one. *)
Lemma elem_of_shift_trace (i : Z) (st : Step) :
  st ∈ shift_trace text pattern i →
  match first_mismatch text pattern i with
  | Some k =>
      (∃ j, 0 ≤ j ≤ k ∧ st = Pending i j) ∨ st = Mismatch i k
  | None =>
      (∃ j, 0 ≤ j < len pattern ∧ st = Pending i j) ∨
      st = FullMatch (len pattern) i
  end.
Proof.
  unfold shift_trace, range.
  destruct (first_mismatch text pattern i) as [k|];
    rewrite elem_of_app, list_elem_of_fmap, list_elem_of_singleton;
    (intros [(j & -> & Hj)| ->]; [|by right]);
    apply elem_of_seqZ in Hj; left; exists j; (split; [lia|done]).
Qed.

Lemma elem_of_generated (steps : list Step) (st : Step) :
  naive_search_steps text pattern = Some steps →
  st ∈ steps →
  1 ≤ len pattern ≤ len text ∧
  ∃ i, 0 ≤ i ≤ len text - len pattern ∧ st ∈ shift_trace text pattern i.
Proof.
  rewrite naive_search_steps_eq. intros [= <-].
  destruct (decide (len pattern = 0)) as [Hm|Hm].
  { rewrite bool_decide_eq_true_2 by done. by intros ?%elem_of_nil. }
  rewrite bool_decide_eq_false_2 by done. unfold reference_trace, range.
  intros (i & Hst & Hi%elem_of_seqZ)%list_elem_of_bind.
  pose proof (Nat2Z.is_nonneg (length pattern)) as Hlen. unfold len in *.
  split; [lia|]. exists i. split; [lia|done].
Qed.

Lemma shift_trace_length (i : Z) :
  1 ≤ len pattern →
  (2 ≤ length (shift_trace text pattern i) ≤ S (length pattern))%nat.
Proof.
  intros Hm. unfold shift_trace, range.
  destruct (first_mismatch text pattern i) as [k|] eqn:Hk;
    rewrite length_app, length_fmap, length_seqZ; simpl.
  - apply first_mismatch_Some in Hk as [Hk _]. unfold len in Hk. lia.
  - unfold len in *. lia.
Qed.

End steps_of_a_trace.

Lemma count_one_per_block {A B} (P Q : B → Prop)
    `{!∀ x, Decision (P x), !∀ x, Decision (Q x)} (f : A → list B)
    (l : list A) :
  (∀ x, (length (filter P (f x)) + length (filter Q (f x)) = 1)%nat) →
  (length (filter P (l ≫= f)) + length (filter Q (l ≫= f)) = length l)%nat.
Proof.
  intros Hone. induction l as [|x l IH]; [done|].
  rewrite bind_cons, !filter_app, !length_app, length_cons.
  specialize (Hone x). lia.
Qed.

Lemma slice_agree (text pattern : str) (i j : Z) :
  0 ≤ i → 0 ≤ j →
  (∀ j', 0 ≤ j' < j →
         text !! Z.to_nat (i + j') = pattern !! Z.to_nat j') →
  slice text i (i + j) = slice pattern 0 j.
Proof.
  intros Hi Hj Hall. unfold slice.
  replace (i + j - i) with j by lia. rewrite Z.sub_0_r.
  change (drop (Z.to_nat 0) pattern) with pattern.
  apply list_eq. intros q.
  destruct (decide (q < Z.to_nat j)%nat) as [Hq|Hq].
  - rewrite !lookup_take_lt, lookup_drop by done.
    specialize (Hall (Z.of_nat q)). rewrite Nat2Z.id in Hall.
    rewrite <- Hall by lia. f_equal. lia.
  - by rewrite !lookup_take_ge by lia.
Qed.

Lemma generated_in_bounds (text pattern : str) (steps : list Step) (st : Step) :
  naive_search_steps text pattern = Some steps →
  st ∈ steps →
  0 ≤ shift st ≤ len text - len pattern ∧
  0 ≤ pattern_idx st < len pattern ∧
  text_idx st = shift st + pattern_idx st.
Proof.
  intros Hgen Hst.
  destruct (elem_of_generated text pattern _ st Hgen Hst)
    as (Hm & i & Hi & Hin).
  apply elem_of_shift_trace in Hin.
  destruct (first_mismatch text pattern i) as [k|] eqn:Hk.
  - apply first_mismatch_Some in Hk as [Hk _].
    destruct Hin as [(j & Hj & ->)| ->]; simpl; lia.
  - destruct Hin as [(j & Hj & ->)| ->]; simpl; lia.
Qed.

(** X1: every step the generator produces has its indices inside the
    inputs: the shift is one of [0 .. len(text)-len(pattern)], the pattern
    index one of [0 .. len(pattern)-1], and the text index is their sum,
    so it is a position of the text. *)
Theorem generated_step_bounds (text pattern : str) :
  ∃ steps,
    naive_search_steps text pattern = Some steps ∧
    Forall (λ st,
              0 ≤ shift st ≤ len text - len pattern ∧
              0 ≤ pattern_idx st < len pattern ∧
              text_idx st = shift st + pattern_idx st ∧
              0 ≤ text_idx st < len text)
           steps.
Proof.
  eexists. split; [apply naive_search_steps_eq|].
  apply Forall_forall. intros st Hst.
  pose proof (generated_in_bounds text pattern _ st
                (naive_search_steps_eq _ _) Hst).
  lia.
Qed.

Lemma at_shift_reference (text pattern : str) (sh : Z) :
  at_shift sh (reference_trace text pattern) =
  if decide (0 ≤ sh ≤ len text - len pattern)
  then shift_trace text pattern sh else [].
Proof.
  unfold reference_trace, range. rewrite at_shift_trace by apply NoDup_seqZ.
  destruct (decide (0 ≤ sh ≤ len text - len pattern)) as [Hsh|Hsh].
  - rewrite decide_True; [done|]. apply elem_of_seqZ. lia.
  - rewrite decide_False; [done|]. rewrite elem_of_seqZ. lia.
Qed.

(** X2: on accepted inputs the steps of each shift
    [0 .. len(text) - len(pattern)] are at least two and at most
    [len(pattern) + 1], and no step has another shift; so the generator
    produces between [2 (n - m + 1)] and [(m + 1) (n - m + 1)] steps in
    all. *)
Theorem generated_steps_size (text pattern : str) :
  1 ≤ len pattern ≤ len text →
  ∃ steps,
    naive_search_steps text pattern = Some steps ∧
    (∀ sh, 0 ≤ sh ≤ len text - len pattern →
           2 ≤ len (at_shift sh steps) ≤ len pattern + 1) ∧
    (∀ sh, ¬ (0 ≤ sh ≤ len text - len pattern) → at_shift sh steps = []) ∧
    2 * (len text - len pattern + 1) ≤ len steps ∧
    len steps ≤ (len pattern + 1) * (len text - len pattern + 1).
Proof.
  intros H. eexists. split; [apply naive_search_steps_eq|].
  rewrite bool_decide_eq_false_2 by lia. split_and!.
  - intros sh Hsh. rewrite at_shift_reference, decide_True by done.
    pose proof (shift_trace_length text pattern sh) as Hl.
    unfold len in *. lia.
  - intros sh Hsh. by rewrite at_shift_reference, decide_False.
  - unfold reference_trace.
    pose proof (length_bind_bounds (shift_trace text pattern) 2
                  (S (length pattern))
                  (range (len text - len pattern + 1))) as Hb.
    unfold range in *. rewrite length_seqZ in Hb.
    destruct Hb as [Hlo Hhi].
    { apply Forall_forall. intros i _. apply shift_trace_length. lia. }
    unfold len in *. nia.
  - unfold reference_trace.
    pose proof (length_bind_bounds (shift_trace text pattern) 2
                  (S (length pattern))
                  (range (len text - len pattern + 1))) as Hb.
    unfold range in *. rewrite length_seqZ in Hb.
    destruct Hb as [Hlo Hhi].
    { apply Forall_forall. intros i _. apply shift_trace_length. lia. }
    unfold len in *. nia.
Qed.

Lemma generated_steps_size_witness :
  1 ≤ len (chars "AB") ≤ len (chars "AAB") ∧
  ∃ steps,
    naive_search_steps (chars "AAB") (chars "AB") = Some steps ∧
    2 ≤ len (at_shift 1 steps) ≤ 3 ∧
    4 ≤ len steps ∧ len steps ≤ 6.
Proof.
  assert (H : 1 ≤ len (chars "AB") ≤ len (chars "AAB"))
    by (unfold len; simpl; lia).
  split; [exact H|].
  destruct (generated_steps_size _ _ H) as (steps & Hgen & Hper & _ & Hlo & Hhi).
  exists steps. split; [exact Hgen|].
  change (len (chars "AB")) with 2 in *. change (len (chars "AAB")) with 3 in *.
  specialize (Hper 1). lia.
Defined.


(** X4: what a generated step says about the inputs: the pattern offsets
    before [pattern_idx] agree with the text at this shift; at a Mismatch
    step the two characters under comparison differ; at a FullMatch step
    the slice of the text at the shift is the pattern. *)
Theorem generated_step_meaning (text pattern : str) :
  ∃ steps,
    naive_search_steps text pattern = Some steps ∧
    Forall (λ st,
              slice text (shift st) (shift st + pattern_idx st) =
                slice pattern 0 (pattern_idx st) ∧
              (is_mismatch st →
               text !! Z.to_nat (text_idx st) ≠
               pattern !! Z.to_nat (pattern_idx st)) ∧
              (is_full_match st →
               slice text (shift st) (shift st + len pattern) = pattern))
           steps.
Proof.
  eexists. split; [apply naive_search_steps_eq|].
  apply Forall_forall. intros st Hst.
  destruct (elem_of_generated text pattern _ st (naive_search_steps_eq _ _) Hst)
    as (Hm & i & Hi & Hin).
  apply elem_of_shift_trace in Hin.
  destruct (first_mismatch text pattern i) as [k|] eqn:Hk.
  - pose proof (first_mismatch_least text pattern i k Hk) as Hleast.
    apply first_mismatch_Some in Hk as [Hk Hd].
    unfold differ in Hd. apply bool_decide_eq_true in Hd.
    destruct Hin as [(j & Hj & ->)| ->]; simpl; (split_and!; [|done..]).
    + apply slice_agree; [lia..|]. intros j' Hj'. apply Hleast. lia.
    + by apply slice_agree; [lia..|].
  - pose proof (proj1 (first_mismatch_None text pattern i) Hk) as Hall.
    destruct Hin as [(j & Hj & ->)| ->]; simpl; split_and!; try done.
    + apply slice_agree; [lia..|]. intros j' Hj'. apply Hall. lia.
    + apply slice_agree; [lia..|]. intros j' Hj'. apply Hall. lia.
    + intros _. apply first_mismatch_slice; [lia..|done].
Qed.

(** X5: in the generated sequence every Mismatch and every FullMatch step
    comes right after a Pending step with the same [text_idx],
    [pattern_idx] and [shift]. *)
Theorem generated_steps_preceded_by_pending (text pattern : str) :
  ∃ steps,
    naive_search_steps text pattern = Some steps ∧
    preceded_by_pending steps.
Proof.
  eexists. split; [apply naive_search_steps_eq|]. apply generated_preceded.
Qed.

Lemma shift_trace_verdict (text pattern : str) (i : Z) :
  ∃ pending verdict,
    shift_trace text pattern i = pending ++ [verdict] ∧
    Forall is_pending pending ∧
    (is_mismatch verdict ∨ is_full_match verdict).
Proof.
  unfold shift_trace. destruct (first_mismatch text pattern i) as [k|].
  - exists (Pending i <$> range (k + 1)), (Mismatch i k).
    split_and!; [done| |by left]. rewrite Forall_fmap. by apply Forall_true.
  - exists (Pending i <$> range (len pattern)), (FullMatch (len pattern) i).
    split_and!; [done| |by right]. rewrite Forall_fmap. by apply Forall_true.
Qed.

(** X6: on accepted inputs every shift is closed by exactly one verdict:
    the steps of each shift [0 .. len(text) - len(pattern)] are Pending
    steps followed by one last step that is a Mismatch or a FullMatch; so
    the numbers of Mismatch and of FullMatch steps add up to the number of
    shifts, and the FullMatch steps are as many as the occurrences of the
    pattern. *)
Theorem one_verdict_per_shift (text pattern : str) :
  1 ≤ len pattern ≤ len text →
  ∃ steps,
    naive_search_steps text pattern = Some steps ∧
    (∀ sh, 0 ≤ sh ≤ len text - len pattern →
           ∃ pending verdict,
             at_shift sh steps = pending ++ [verdict] ∧
             Forall is_pending pending ∧
             (is_mismatch verdict ∨ is_full_match verdict)) ∧
    len (filter is_mismatch steps) + len (filter is_full_match steps) =
      len text - len pattern + 1 ∧
    len (filter is_full_match steps) = len (occurrences text pattern).
Proof.
  intros H. eexists. split; [apply naive_search_steps_eq|].
  rewrite bool_decide_eq_false_2 by lia. split_and!.
  - intros sh Hsh. rewrite at_shift_reference, decide_True by done.
    apply shift_trace_verdict.
  - unfold reference_trace.
    pose proof (count_one_per_block is_mismatch is_full_match
                  (shift_trace text pattern)
                  (range (len text - len pattern + 1))) as Hc.
    unfold range in *. rewrite length_seqZ in Hc. unfold len in *.
    rewrite <- Nat2Z.inj_add, Hc; [lia|].
    intros i. unfold shift_trace.
    destruct (first_mismatch text pattern i);
      by rewrite !filter_app, !filter_fmap_none by done.
  - unfold len. by rewrite reference_trace_full, length_fmap.
Qed.

Lemma one_verdict_per_shift_witness :
  1 ≤ len (chars "AB") ≤ len (chars "AAB") ∧
  ∃ steps,
    naive_search_steps (chars "AAB") (chars "AB") = Some steps ∧
    (∃ pending verdict,
       at_shift 0 steps = pending ++ [verdict] ∧
       Forall is_pending pending ∧
       (is_mismatch verdict ∨ is_full_match verdict)) ∧
    len (filter is_mismatch steps) + len (filter is_full_match steps) = 2.
Proof.
  assert (H : 1 ≤ len (chars "AB") ≤ len (chars "AAB"))
    by (unfold len; simpl; lia).
  split; [exact H|].
  destruct (one_verdict_per_shift _ _ H) as (steps & Hgen & Hper & Hsum & _).
  exists steps. split; [exact Hgen|]. split; [|exact Hsum].
  apply Hper. change (len (chars "AB")) with 2.
  change (len (chars "AAB")) with 3. lia.
Defined.

(** * Further properties of the step walker *)

Lemma advance_n_add (a b : nat) (st : session_state.t) :
  advance_n (a + b) st = advance_n a st ≫= advance_n b.
Proof.
  revert st. induction a as [|a IH]; intros st; [done|].
  cbn [Nat.add advance_n]. destruct (advance st) as [st'|]; [|done].
  simpl. apply IH.
Qed.

Lemma advance_n_disabled (k : nat) (st : session_state.t) :
  disabled_next st = true → advance_n k st = Some st.
Proof.
  intros Hd. induction k as [|k IH]; [done|].
  cbn [advance_n]. unfold advance. by rewrite Hd.
Qed.

Lemma found_of_full_matches (m : Z) (l : list Z) :
  (FullMatch m <$> l) ≫= Step.found_indices = l.
Proof.
  induction l as [|i l IH]; [done|].
  by rewrite fmap_cons, bind_cons, IH.
Qed.

Lemma accepted_nonempty {A} (l : list A) : 1 ≤ len l → truthy l = true.
Proof. by destruct l. Qed.

(** X7: what one advance command can do to a session, whatever the
    session: it keeps [steps] and [started], never shortens
    [found_indices], never clears [complete], and leaves the cursor where
    it is or moves it one step forward; on a session that is not started
    or is complete it changes nothing. *)
Theorem advance_preserves (st st' : session_state.t) :
  advance st = Some st' →
  steps st' = steps st ∧
  started st' = started st ∧
  found_indices st `prefix_of` found_indices st' ∧
  (complete st = true → complete st' = true) ∧
  (step_idx st' = step_idx st ∨
   ∃ idx, step_idx st = Some idx ∧ step_idx st' = Some (idx + 1)) ∧
  (started st = false ∨ complete st = true → st' = st).
Proof.
  unfold advance, disabled_next, next_step.
  destruct st as [all idx found on done]. simpl.
  assert (Hfin : ∀ idx' found' done',
            found `prefix_of` found' →
            (done = true → done' = true) →
            (idx' = idx ∨ ∃ i, idx = Some i ∧ idx' = Some (i + 1)) →
            (on = false ∨ done = true →
             idx' = idx ∧ found' = found ∧ done' = done) →
            Some (session_state.mk all idx' found' on done') = Some st' →
            steps st' = all ∧ started st' = on ∧
            found `prefix_of` found_indices st' ∧
            (done = true → complete st' = true) ∧
            (step_idx st' = idx ∨
             ∃ i, idx = Some i ∧ step_idx st' = Some (i + 1)) ∧
            (on = false ∨ done = true →
             st' = session_state.mk all idx found on done)).
  { intros idx' found' done' Hp Hc Hi Hsame [= <-]. simpl.
    split_and!; try done.
    intros Hd. by destruct (Hsame Hd) as (-> & -> & ->). }
  destruct on, done; simpl; try (by apply Hfin; auto).
  destruct idx as [idx|]; [|by apply Hfin; auto; intros [?|?]].
  destruct (bool_decide (idx < len all - 1)).
  - destruct (getitem all (idx + 1)) as [step|]; [|done]. simpl.
    destruct (bool_decide _ && truthy _); apply Hfin;
      try done; try (by apply prefix_app_r); try (by right; eexists);
      by intros [?|?].
  - apply Hfin; try done; [by left|by intros [?|?]].
Qed.

Lemma advance_preserves_witness :
  let st := session_state.mk [Pending 0 0; FullMatch 1 0] (Some 0) [] true false in
  let st' := session_state.mk [Pending 0 0; FullMatch 1 0] (Some 1) [0] true false in
  advance st = Some st' ∧ found_indices st `prefix_of` found_indices st'.
Proof.
  intros st st'.
  assert (H : advance st = Some st') by reflexivity.
  split; [exact H|].
  destruct (advance_preserves st st' H) as (_ & _ & Hp & _). exact Hp.
Defined.

(** X8: an accepted start command does not depend on the session it is
    given: for [1 <= len(pattern) <= len(text)] it always installs the
    generated steps with the cursor at the initial position, an empty
    [found_indices], [started] set and [complete] clear; no step is shown
    yet and the status line is the ready prompt. *)
Theorem start_search_accepts (text pattern : str) :
  1 ≤ len pattern ≤ len text →
  ∃ gen,
    naive_search_steps text pattern = Some gen ∧
    let fresh := session_state.mk gen (Some (-1)) [] true false in
    (∀ st0, start_search text pattern st0 = Some (fresh, [])) ∧
    current_step fresh = None ∧
    status_area pattern fresh =
      Some [st_caption "Ready. Press 'Next Step' to begin comparison."].
Proof.
  intros H. eexists. split; [apply naive_search_steps_eq|]. simpl.
  split_and!.
  - intros st0. unfold start_search.
    rewrite !accepted_nonempty by lia. simpl.
    rewrite bool_decide_eq_false_2 by lia.
    by rewrite naive_search_steps_eq.
  - done.
  - unfold status_area, completion_summary. simpl.
    by destruct (bool_decide _).
Qed.

Lemma start_search_accepts_witness :
  1 ≤ len (chars "AA") ≤ len (chars "AAAA") ∧
  ∃ gen,
    naive_search_steps (chars "AAAA") (chars "AA") = Some gen ∧
    start_search (chars "AAAA") (chars "AA")
      (session_state.mk [] (Some 3) [7] true true) =
    Some (session_state.mk gen (Some (-1)) [] true false, []).
Proof.
  assert (H : 1 ≤ len (chars "AA") ≤ len (chars "AAAA"))
    by (unfold len; simpl; lia).
  split; [exact H|].
  destruct (start_search_accepts _ _ H) as (gen & Hgen & Hstart & _).
  exists gen. split; [exact Hgen|]. apply Hstart.
Defined.

(** X9: the whole walk: on accepted inputs, [len(steps) + 1] advance
    commands after the start, and any number more, end in the completed
    session with the cursor on the last step and [found_indices] equal to
    the occurrences of the pattern in the text; the summary then lists
    them, or says that the pattern was not found when there is none. *)
Theorem full_walk_finds_occurrences (text pattern : str) (extra : nat) :
  1 ≤ len pattern ≤ len text →
  ∃ gen,
    naive_search_steps text pattern = Some gen ∧
    let final :=
      session_state.mk gen (Some (len gen - 1)) (occurrences text pattern)
        true true in
    advance_n (S (length gen) + extra)
      (session_state.mk gen (Some (-1)) [] true false) = Some final ∧
    completion_summary final =
      [ match occurrences text pattern with
        | [] => st_warning "Search complete. Pattern not found."
        | _ :: _ =>
            st_success ("Search complete. Pattern found at indices: "
                        +:+ str_list (occurrences text pattern))
        end;
        st_caption "Press **Reset** to start again." ].
Proof.
  intros H. eexists. split; [apply naive_search_steps_eq|].
  rewrite bool_decide_eq_false_2 by lia.
  set (gen := reference_trace text pattern). cbv zeta. split.
  - replace (S (length gen) + extra)%nat with (length gen + S extra)%nat by lia.
    rewrite advance_n_add.
    pose proof (advance_n_running gen (length gen) 0 [] (le_n _)) as Hrun.
    change (Z.of_nat 0 - 1) with (-1) in Hrun.
    change (0 + length gen)%nat with (length gen) in Hrun.
    rewrite drop_0, take_ge, app_nil_l in Hrun by done.
    rewrite Hrun. cbn [mbind option_bind advance_n].
    unfold advance at 1, disabled_next, next_step.
    cbn [started complete step_idx steps found_indices negb orb].
    rewrite bool_decide_eq_false_2 by (unfold len; lia).
    cbn [mbind option_bind].
    rewrite advance_n_disabled by done.
    replace (filter is_full_match gen ≫= Step.found_indices)
      with (occurrences text pattern); [done|].
    unfold gen. by rewrite reference_trace_full, found_of_full_matches.
  - unfold completion_summary. simpl.
    rewrite bool_decide_eq_true_2 by lia.
    by destruct (occurrences text pattern).
Qed.

Lemma full_walk_finds_occurrences_witness :
  1 ≤ len (chars "AA") ≤ len (chars "AAAA") ∧
  ∃ gen,
    naive_search_steps (chars "AAAA") (chars "AA") = Some gen ∧
    advance_n (S (length gen) + 2)
      (session_state.mk gen (Some (-1)) [] true false) =
    Some (session_state.mk gen (Some (len gen - 1)) [0; 1; 2] true true).
Proof.
  assert (H : 1 ≤ len (chars "AA") ≤ len (chars "AAAA"))
    by (unfold len; simpl; lia).
  split; [exact H|].
  destruct (full_walk_finds_occurrences _ _ 2 H) as (gen & Hgen & Hwalk & _).
  exists gen. split; [exact Hgen|]. exact Hwalk.
Defined.

Lemma status_text_generated (text pattern : str) (gen : list Step)
    (step : Step) (found : list Z) (m : Z) :
  naive_search_steps text pattern = Some gen →
  step ∈ gen →
  is_Some (status_text (Some step) found m).
Proof.
  intros Hgen Hin. pose proof (generated_found text pattern gen Hgen) as Hall.
  rewrite Forall_forall in Hall. destruct (Hall step Hin) as [Hfull _].
  unfold status_text. destruct (match_ step) as [[]|] eqn:Hm; [|by eexists..].
  rewrite (Hfull Hm). by eexists.
Qed.

(** X10: the walk shows the steps one by one, none skipped: [k + 1]
    advance commands after the start put the cursor on step [k] of the
    generated sequence, that step is the one handed to the renderer, its
    status line is produced without an error, and the status area shows
    that line alone. *)
Theorem walk_shows_each_step (text pattern : str) (gen : list Step)
    (k : nat) (step : Step) :
  naive_search_steps text pattern = Some gen →
  gen !! k = Some step →
  ∃ stk line,
    advance_n (S k) (session_state.mk gen (Some (-1)) [] true false) =
      Some stk ∧
    step_idx stk = Some (Z.of_nat k) ∧
    current_step stk = Some step ∧
    status_text (Some step) (found_indices stk) (len pattern) = Some line ∧
    status_area pattern stk = Some [st_caption line].
Proof.
  intros Hgen Hk. pose proof (lookup_lt_Some _ _ _ Hk) as Hlt.
  pose proof (advance_n_running gen (S k) 0 [] ltac:(simpl; lia)) as Hrun.
  change (Z.of_nat 0 - 1) with (-1) in Hrun.
  change (0 + S k)%nat with (S k) in Hrun.
  replace (Z.of_nat (S k) - 1) with (Z.of_nat k) in Hrun by lia.
  rewrite app_nil_l in Hrun.
  assert (Hcur : current_step
                   (session_state.mk gen (Some (Z.of_nat k))
                      (filter is_full_match (take (S k) (drop 0 gen))
                       ≫= Step.found_indices) true false) = Some step).
  { unfold current_step. simpl.
    rewrite bool_decide_eq_false_2 by lia.
    rewrite bool_decide_eq_true_2 by (unfold len; lia).
    by rewrite Nat2Z.id. }
  destruct (status_text_generated text pattern gen step
              (filter is_full_match (take (S k) (drop 0 gen))
               ≫= Step.found_indices) (len pattern) Hgen) as [line Hline].
  { by eapply list_elem_of_lookup_2. }
  eexists. exists line. split; [exact Hrun|]. split; [done|].
  split; [exact Hcur|]. split; [exact Hline|].
  unfold status_area. cbn [started negb found_indices].
  rewrite Hcur, Hline. simpl. unfold completion_summary. simpl.
  by destruct (bool_decide _).
Qed.

Lemma walk_shows_each_step_witness :
  ∃ stk,
    advance_n 3 (session_state.mk
                   [Pending 0 0; Pending 0 1; Mismatch 0 1;
                    Pending 1 0; Pending 1 1; FullMatch 2 1]
                   (Some (-1)) [] true false) = Some stk ∧
    current_step stk = Some (Mismatch 0 1) ∧
    status_area (chars "AB") stk =
      Some [st_caption "Mismatch at text[1] and pattern[1]. Shifting pattern."].
Proof.
  assert (Hgen : naive_search_steps (chars "AAB") (chars "AB") =
                 Some [Pending 0 0; Pending 0 1; Mismatch 0 1;
                       Pending 1 0; Pending 1 1; FullMatch 2 1])
    by (vm_compute; reflexivity).
  destruct (walk_shows_each_step _ _ _ 2%nat (Mismatch 0 1) Hgen eq_refl)
    as (stk & line & Hadv & _ & Hcur & Hline & Harea).
  exists stk. split; [exact Hadv|]. split; [exact Hcur|].
  rewrite Harea. vm_compute in Hline. injection Hline as <-. reflexivity.
Defined.

(** ** Sessions the page can reach *)

Lemma consistent_init : consistent init_state.
Proof. by unfold consistent. Qed.

Lemma start_search_consistent (text pattern : str)
    (st st' : session_state.t) (alerts : list alert) :
  start_search text pattern st = Some (st', alerts) →
  consistent st → consistent st'.
Proof.
  unfold start_search. intros Hstart Hc.
  destruct text as [|a text]; [by injection Hstart as <- <-|].
  destruct pattern as [|b pattern]; [by injection Hstart as <- <-|].
  simpl in Hstart.
  destruct (decide (len (b :: pattern) > len (a :: text))) as [Hlen|Hlen].
  { rewrite bool_decide_eq_true_2 in Hstart by done.
    by injection Hstart as <- <-. }
  rewrite bool_decide_eq_false_2 in Hstart by done.
  destruct (naive_search_steps (a :: text) (b :: pattern)) as [gen|] eqn:Hgen;
    [|done].
  injection Hstart as <- <-. unfold consistent. simpl.
  split_and!; try done.
  - unfold len. lia.
  - exists (a :: text), (b :: pattern). split; [|done].
    unfold len in *. simpl in *. lia.
Qed.

Lemma advance_consistent (st : session_state.t) :
  consistent st →
  ∃ st', advance st = Some st' ∧ consistent st'.
Proof.
  unfold advance, disabled_next, next_step, consistent.
  destruct st as [all [idx|] found on done]; simpl.
  - intros (-> & Hidx & Hgen & Hfound & Hdone). simpl.
    destruct done;
      [eexists; split; [done|]; simpl; split_and!; auto; lia|].
    simpl. destruct (decide (idx < len all - 1)) as [Hlt|Hge].
    + rewrite bool_decide_eq_true_2 by done.
      destruct (getitem_in_range all (idx + 1)) as (step & Hget & Hlk); [lia|].
      rewrite Hget. simpl.
      assert (Hnext :
        found ++ (if bool_decide (match_ step = Some true)
                     && truthy (Step.found_indices step)
                  then Step.found_indices step else []) =
        filter is_full_match (take (Z.to_nat (idx + 1 + 1)) all)
        ≫= Step.found_indices).
      { replace (Z.to_nat (idx + 1 + 1)) with (S (Z.to_nat (idx + 1))) by lia.
        rewrite (take_S_r _ _ _ Hlk), filter_app, bind_app, <- Hfound.
        by rewrite found_of_step. }
      destruct (bool_decide _ && truthy _) eqn:Hcond; rewrite ?Hcond in Hnext;
        eexists; (split; [done|]); simpl;
        (split_and!; try done; try lia).
      by rewrite app_nil_r in Hnext.
    + rewrite bool_decide_eq_false_2 by done.
      eexists. split; [done|]. simpl.
      split_and!; try done; try lia; intros _; lia.
  - intros (-> & -> & -> & ->). simpl. eexists. split; [done|]. by simpl.
Qed.

Lemma status_area_consistent (pattern : str) (st : session_state.t) :
  consistent st → is_Some (status_area pattern st).
Proof.
  unfold status_area. intros Hc.
  destruct (started st) eqn:Hon; [|by eexists]. simpl.
  destruct (current_step st) as [step|] eqn:Hcur; [|by eexists].
  unfold current_step, consistent in *. rewrite Hon in Hcur.
  destruct (step_idx st) as [idx|]; [|done].
  destruct Hc as (_ & _ & (text & pat & _ & Hgen) & _).
  destruct (bool_decide (idx = -1)); [done|].
  destruct (bool_decide _); [|done].
  apply list_elem_of_lookup_2 in Hcur.
  destruct (status_text_generated text pat _ step (found_indices st)
              (len pattern) Hgen Hcur) as [line ->].
  by eexists.
Qed.

Lemma render_visual_returns (text pattern : str) (step : option Step)
    (found : list Z) :
  is_Some (render_visual text pattern step found).
Proof.
  unfold render_visual.
  destruct (current_match_positions_total pattern step) as [cur ->].
  by eexists.
Qed.

Lemma reachable_consistent (st : session_state.t) :
  reachable st → consistent st.
Proof.
  induction 1 as [|st ti pi pressed st' pg _ IH Hrun];
    [apply consistent_init|].
  unfold run in Hrun.
  assert (Hst' : ∀ st1 alerts,
            match pressed with
            | start_button => start_search ti pi st
            | next_button => st'0 ← advance st; Some (st'0, [])
            | reset_button => Some (reset_state st, [])
            | no_button => Some (st, [])
            end = Some (st1, alerts) → consistent st1).
  { intros st1 alerts. destruct pressed.
    - by intros [= <- <-].
    - intros Hs. by eapply start_search_consistent.
    - destruct (advance_consistent st IH) as (st2 & -> & Hc2). simpl.
      by intros [= <- <-].
    - intros [= <- <-]. apply consistent_init. }
  destruct (match pressed with start_button => _ | _ => _ end)
    as [[st1 alerts]|]; [|done].
  specialize (Hst' st1 alerts eq_refl).
  destruct (render_visual _ _ _ _); [|done]. simpl in Hrun.
  destruct (status_area _ _); [|done]. simpl in Hrun.
  by injection Hrun as <- <-.
Qed.

(** X11: no run of the script fails: in every session reachable from the
    initial one through runs with any widget values and any button, the
    next run, again with any widget values and any button, returns a
    session and a page; and every reachable session is either not started
    and empty, or started on the generated steps of an accepted text and
    pattern with the cursor between the initial position and the last
    step. *)
Theorem reachable_run_returns (st : session_state.t) :
  reachable st →
  consistent st ∧
  ∀ text_input pattern_input pressed,
    ∃ st' pg,
      run text_input pattern_input pressed st = Some (st', pg) ∧
      consistent st'.
Proof.
  intros Hr. pose proof (reachable_consistent st Hr) as Hc.
  split; [done|]. intros ti pi pressed.
  assert (Hh : ∃ st1 alerts,
            match pressed with
            | start_button => start_search ti pi st
            | next_button => st'0 ← advance st; Some (st'0, [])
            | reset_button => Some (reset_state st, [])
            | no_button => Some (st, [])
            end = Some (st1, alerts) ∧ consistent st1).
  { destruct pressed.
    - by exists st, [].
    - destruct (start_search ti pi st) as [[st1 alerts]|] eqn:Hs.
      + exists st1, alerts. split; [done|]. by eapply start_search_consistent.
      + unfold start_search in Hs. rewrite naive_search_steps_eq in Hs.
        destruct (negb (truthy ti) || negb (truthy pi)); [done|].
        by destruct (bool_decide (len pi > len ti)).
    - destruct (advance_consistent st Hc) as (st2 & -> & Hc2).
      by exists st2, [].
    - exists init_state, []. split; [done|]. apply consistent_init. }
  destruct Hh as (st1 & alerts & Hh & Hc1). unfold run. rewrite Hh.
  destruct (render_visual_returns ti pi (current_step st1) (found_indices st1))
    as [html ->].
  destruct (status_area_consistent pi st1 Hc1) as [area ->].
  simpl. by do 2 eexists.
Qed.

Lemma reachable_run_returns_witness :
  let st := session_state.mk [Pending 0 0; FullMatch 1 0] (Some (-1)) [] true false in
  reachable st ∧
  ∃ st' pg, run (chars "A") (chars "A") next_button st = Some (st', pg) ∧
            consistent st'.
Proof.
  intros st.
  assert (Hr : reachable st).
  { destruct (run (chars "A") (chars "A") start_button init_state)
      as [[st1 pg]|] eqn:Hrun; [|by vm_compute in Hrun].
    assert (st1 = st) as <-; [|exact (reachable_run _ _ _ _ _ _ reachable_init Hrun)].
    vm_compute in Hrun. by injection Hrun as <- _. }
  split; [exact Hr|].
  destruct (reachable_run_returns st Hr) as [_ Hrun].
  exact (Hrun (chars "A") (chars "A") next_button).
Defined.

(** X12: in every reachable session [found_indices] is strictly
    increasing, and in a started one it is an initial part of the
    occurrences of the pattern the steps were generated for. *)
Theorem reachable_found_indices (st : session_state.t) :
  reachable st →
  StronglySorted Z.lt (found_indices st) ∧
  (started st = true →
   ∃ text pattern,
     naive_search_steps text pattern = Some (steps st) ∧
     found_indices st `prefix_of` occurrences text pattern).
Proof.
  intros Hc%reachable_consistent. unfold consistent in Hc.
  destruct (step_idx st) as [idx|].
  - destruct Hc as (_ & _ & (text & pattern & Hvalid & Hgen) & Hfound & _).
    assert (Hpre : found_indices st `prefix_of` occurrences text pattern).
    { pose proof Hgen as Hgen'. rewrite naive_search_steps_eq in Hgen'.
      rewrite bool_decide_eq_false_2 in Hgen' by lia.
      injection Hgen' as Hgen'.
      exists (filter is_full_match (drop (Z.to_nat (idx + 1)) (steps st))
              ≫= Step.found_indices).
      rewrite Hfound, <- bind_app, <- filter_app, take_drop, <- Hgen'.
      by rewrite reference_trace_full, found_of_full_matches. }
    split; [|by eauto].
    destruct Hpre as [rest Hrest].
    pose proof (occurrences_sorted text pattern) as Hs. rewrite Hrest in Hs.
    by apply StronglySorted_app_1_l in Hs.
  - destruct Hc as (_ & -> & -> & _). split; [constructor|done].
Qed.

Lemma reachable_found_indices_witness :
  let st := session_state.mk [Pending 0 0; FullMatch 1 0] (Some 1) [0] true false in
  reachable st ∧
  StronglySorted Z.lt (found_indices st) ∧
  ∃ text pattern,
    naive_search_steps text pattern = Some (steps st) ∧
    found_indices st `prefix_of` occurrences text pattern.
Proof.
  intros st.
  assert (Hr : reachable st).
  { pose (st0 := session_state.mk [Pending 0 0; FullMatch 1 0] (Some (-1)) []
                    true false).
    pose (st1 := session_state.mk [Pending 0 0; FullMatch 1 0] (Some 0) []
                    true false).
    assert (H0 : reachable st0).
    { eapply (reachable_run init_state (chars "A") (chars "A") start_button);
        [apply reachable_init|vm_compute; reflexivity]. }
    assert (H1 : reachable st1).
    { eapply (reachable_run st0 (chars "A") (chars "A") next_button);
        [exact H0|vm_compute; reflexivity]. }
    eapply (reachable_run st1 (chars "A") (chars "A") next_button);
      [exact H1|vm_compute; reflexivity]. }
  split; [exact Hr|].
  destruct (reachable_found_indices st Hr) as [Hs Hp].
  split; [exact Hs|]. exact (Hp eq_refl).
Defined.

(** * Further properties of the rendering *)

Lemma foldl_append_omap {A B} (F : list B → A → list B) (g : A → option B) :
  (∀ acc x, F acc x = acc ++ option_list (g x)) →
  ∀ l acc, foldl F acc l = acc ++ omap g l.
Proof.
  intros HF l. induction l as [|x l IH]; intros acc; simpl.
  - by rewrite app_nil_r.
  - rewrite IH, HF, <- app_assoc. by destruct (g x).
Qed.

Lemma foldl_append_omap_nil {A B} (F : list B → A → list B)
    (g : A → option B) (l : list A) :
  (∀ acc x, F acc x = acc ++ option_list (g x)) →
  foldl F [] l = omap g l.
Proof. intros HF. by rewrite (foldl_append_omap F g HF). Qed.

Lemma omap_Some_fmap {A B} (g : A → B) (l : list A) :
  omap (λ x, Some (g x)) l = g <$> l.
Proof. induction l as [|x l IH]; [done|]. csimpl. by f_equal. Qed.

Section rows.
Variables (text pattern : str) (step : option Step) (found : list Z).

Lemma text_boxes_map (current : gset Z) :
  text_boxes text pattern step found current =
  (λ '(i, ch), mkDiv (text_box_classes pattern step found current i) 3
                 (i + 1) (html_escape ch)) <$> enumerate text.
Proof.
  unfold text_boxes. rewrite <- omap_Some_fmap.
  apply foldl_append_omap_nil. by intros acc [i ch].
Qed.

Lemma text_labels_map :
  text_labels text =
  (λ i, mkDiv ["label"] 4 (i + 1) (str_int i)) <$> range (len text).
Proof.
  unfold text_labels. rewrite <- omap_Some_fmap.
  by apply foldl_append_omap_nil.
Qed.

Lemma pattern_boxes_map :
  pattern_boxes text pattern step =
  omap (λ cell,
          if decide (1 ≤ cur_shift step + cell.1 + 1 ≤ len text)
          then Some (mkDiv (pattern_box_classes step cell.1) 2
                       (cur_shift step + cell.1 + 1) (html_escape cell.2))
          else None)
       (enumerate pattern).
Proof.
  unfold pattern_boxes. apply foldl_append_omap_nil.
  intros acc [i ch]. simpl. destruct (decide _) as [Hc|Hc].
  - by rewrite bool_decide_eq_true_2 by done.
  - rewrite bool_decide_eq_false_2 by done. simpl. by rewrite app_nil_r.
Qed.

Lemma pattern_labels_map :
  pattern_labels text pattern step =
  omap (λ i,
          if decide (1 ≤ cur_shift step + i + 1 ≤ len text)
          then Some (mkDiv ["label"] 1 (cur_shift step + i + 1) (str_int i))
          else None)
       (range (len pattern)).
Proof.
  unfold pattern_labels. apply foldl_append_omap_nil.
  intros acc i. simpl. destruct (decide _) as [Hc|Hc].
  - by rewrite bool_decide_eq_true_2 by done.
  - rewrite bool_decide_eq_false_2 by done. by rewrite app_nil_r.
Qed.
End rows.

Lemma omap_columns {A} (n : Z) (col : A → Z) (mk : A → Div) (l : list A) :
  (∀ x, grid_column (mk x) = col x) →
  grid_column <$>
    omap (λ x, if decide (1 ≤ col x ≤ n) then Some (mk x) else None) l
  = filter (λ c, 1 ≤ c ≤ n) (col <$> l).
Proof.
  intros Hmk. induction l as [|x l IH]; [done|].
  rewrite fmap_cons, filter_cons. csimpl.
  destruct (decide (1 ≤ col x ≤ n)); csimpl; by rewrite IH, ?Hmk.
Qed.

Lemma shifted_range (sh m : Z) :
  (λ i, sh + i + 1) <$> range m = seqZ (sh + 1) m.
Proof.
  unfold range. transitivity (Z.add (sh + 1) <$> seqZ 0 m).
  - apply list_fmap_ext. intros _ i _. lia.
  - rewrite fmap_add_seqZ. f_equal. lia.
Qed.

Lemma enumerate_indices {A} (l : list A) :
  (enumerate l).*1 = range (len l).
Proof.
  unfold enumerate. apply fst_zip.
  unfold range, len. rewrite length_seqZ. lia.
Qed.

Section columns.
Variables (text pattern : str) (step : option Step).

Lemma pattern_labels_columns :
  grid_column <$> pattern_labels text pattern step =
  filter (λ c, 1 ≤ c ≤ len text) (seqZ (cur_shift step + 1) (len pattern)).
Proof.
  rewrite pattern_labels_map.
  etrans;
    [apply (omap_columns (len text)
              (λ i, cur_shift step + i + 1)
              (λ i, mkDiv ["label"] 1 (cur_shift step + i + 1) (str_int i)));
     done|].
  by rewrite shifted_range.
Qed.

Lemma pattern_boxes_columns :
  grid_column <$> pattern_boxes text pattern step =
  filter (λ c, 1 ≤ c ≤ len text) (seqZ (cur_shift step + 1) (len pattern)).
Proof.
  rewrite pattern_boxes_map.
  etrans;
    [apply (omap_columns (len text)
              (λ cell : Z * ascii, cur_shift step + cell.1 + 1)
              (λ cell, mkDiv (pattern_box_classes step cell.1) 2
                         (cur_shift step + cell.1 + 1) (html_escape cell.2)));
     done|].
  change (λ cell : Z * ascii, cur_shift step + cell.1 + 1)
    with ((λ i, cur_shift step + i + 1) ∘ (fst : Z * ascii → Z)).
  rewrite (list_fmap_compose fst (λ i, cur_shift step + i + 1)).
  by rewrite enumerate_indices, shifted_range.
Qed.
End columns.

(** X13: [status_text] raises exactly on a step whose [match] is [True]
    and whose [found_indices] is empty, where it subscripts the empty
    list; [render_visual], which tests the list before the subscript,
    returns for every text, pattern, step and list of found indices. *)
Theorem status_text_fails_iff (step : option Step) (found : list Z) (m : Z)
    (text pattern : str) :
  (status_text step found m = None ↔
   ∃ st, step = Some st ∧ match_ st = Some true ∧ Step.found_indices st = []) ∧
  is_Some (render_visual text pattern step found).
Proof.
  split; [|apply render_visual_returns].
  unfold status_text. destruct step as [st|].
  - destruct (match_ st) as [[]|] eqn:Hm.
    + destruct (Step.found_indices st) as [|f l] eqn:Hf; simpl.
      * split; [|done]. intros _. by exists st.
      * split; [done|]. intros (st' & [= <-] & _ & Hnil). congruence.
    + split; [done|]. intros (st' & [= <-] & Hm' & _). congruence.
    + split; [done|]. intros (st' & [= <-] & Hm' & _). congruence.
  - split; [done|]. by intros (st' & ? & _).
Qed.

(** X14: whatever the step, the page [render_visual] returns holds, after
    the pattern's two rows, a text row with one box per character of the
    text and a label row with one label per position: box [k] sits in
    row 3, column [k + 1], and holds the escaped character [text[k]];
    label [k] sits in row 4, column [k + 1], and shows [k]. *)
Theorem text_rows_layout (text pattern : str) (step : option Step)
    (found : list Z) :
  ∃ current,
    current_match_positions pattern step = Some current ∧
    render_visual text pattern step found =
    Some (page_of_rows (len text)
            (pattern_labels text pattern step ++
             pattern_boxes text pattern step ++
             text_boxes text pattern step found current ++
             text_labels text)) ∧
    length (text_boxes text pattern step found current) = length text ∧
    length (text_labels text) = length text ∧
    ∀ (k : nat) (ch : ascii),
      text !! k = Some ch →
      (∃ cls,
         text_boxes text pattern step found current !! k =
         Some (mkDiv cls 3 (Z.of_nat k + 1) (html_escape ch))) ∧
      text_labels text !! k =
      Some (mkDiv ["label"] 4 (Z.of_nat k + 1) (str_int (Z.of_nat k))).
Proof.
  destruct (render_visual_rows text pattern step found)
    as (current & Hcur & Hpage).
  exists current. split; [done|]. split; [done|].
  rewrite text_boxes_map, text_labels_map, !length_fmap.
  assert (Hlen : length (enumerate text) = length text).
  { unfold enumerate, range, len. rewrite length_zip, length_seqZ. lia. }
  split; [done|]. split.
  { unfold range, len. rewrite length_seqZ. lia. }
  intros k ch Hk. split.
  - eexists. by rewrite list_lookup_fmap, lookup_enumerate, Hk.
  - rewrite list_lookup_fmap. unfold range.
    rewrite lookup_seqZ_lt; [done|].
    apply lookup_lt_Some in Hk. unfold len. lia.
Qed.

(** X15: whatever the step, the page [render_visual] returns begins with
    the pattern's index labels and the pattern's boxes, and the two
    occupy the same columns, in the same order: the columns
    [shift + 1 .. shift + len(pattern)] that lie inside the grid
    [1 .. len(text)]; nothing of the pattern is drawn outside the grid. *)
Theorem pattern_rows_aligned (text pattern : str) (step : option Step)
    (found : list Z) :
  ∃ current,
    current_match_positions pattern step = Some current ∧
    render_visual text pattern step found =
    Some (page_of_rows (len text)
            (pattern_labels text pattern step ++
             pattern_boxes text pattern step ++
             text_boxes text pattern step found current ++
             text_labels text)) ∧
    grid_column <$> pattern_labels text pattern step =
      grid_column <$> pattern_boxes text pattern step ∧
    grid_column <$> pattern_boxes text pattern step =
      filter (λ c, 1 ≤ c ≤ len text)
             (seqZ (cur_shift step + 1) (len pattern)) ∧
    Forall (λ d, 1 ≤ grid_column d ≤ len text)
           (pattern_labels text pattern step ++
            pattern_boxes text pattern step).
Proof.
  destruct (render_visual_rows text pattern step found)
    as (current & Hcur & Hpage).
  exists current. split; [done|]. split; [done|].
  split; [by rewrite pattern_labels_columns, pattern_boxes_columns|].
  split; [apply pattern_boxes_columns|].
  apply Forall_app. split.
  - apply (Forall_fmap grid_column (λ c, 1 ≤ c ≤ len text)).
    rewrite pattern_labels_columns. apply Forall_forall.
    by intros c [? _]%list_elem_of_filter.
  - apply (Forall_fmap grid_column (λ c, 1 ≤ c ≤ len text)).
    rewrite pattern_boxes_columns. apply Forall_forall.
    by intros c [? _]%list_elem_of_filter.
Qed.

Lemma clip_columns (m n : Z) :
  0 ≤ n →
  filter (λ c, 1 ≤ c ≤ n) (seqZ 1 m) = seqZ 1 (Z.min m n).
Proof.
  intros Hn. destruct (decide (m ≤ n)) as [Hle|Hgt].
  - rewrite Z.min_l by done. apply filter_all, Forall_seqZ. lia.
  - rewrite Z.min_r by lia.
    replace m with (n + (m - n)) at 1 by lia.
    rewrite seqZ_app, filter_app by lia.
    rewrite filter_all by (apply Forall_seqZ; lia).
    rewrite filter_none by (apply Forall_seqZ; lia).
    by rewrite app_nil_r.
Qed.

(** X16: the initial layout (no step): in the page [render_visual]
    returns the pattern is drawn from column 1, as far as the grid
    reaches, with no box highlighted; a text box is marked found exactly
    when its position lies in a match found before, so with nothing found
    no box of the text is highlighted either. *)
Theorem initial_layout (text pattern : str) (found : list Z) :
  render_visual text pattern None found =
  Some (page_of_rows (len text)
          (pattern_labels text pattern None ++
           pattern_boxes text pattern None ++
           text_boxes text pattern None found ∅ ++
           text_labels text)) ∧
  Forall (λ d, classes d = ["char"]) (pattern_boxes text pattern None) ∧
  grid_column <$> pattern_boxes text pattern None =
    seqZ 1 (Z.min (len pattern) (len text)) ∧
  (∀ (k : nat) (ch : ascii),
     text !! k = Some ch →
     text_boxes text pattern None found ∅ !! k =
     Some (mkDiv (if decide (Exists (in_match (len pattern) (Z.of_nat k)) found)
                  then ["char"; "found"] else ["char"])
             3 (Z.of_nat k + 1) (html_escape ch))) ∧
  (found = [] →
   Forall (λ d, classes d = ["char"]) (text_boxes text pattern None found ∅)).
Proof.
  assert (Hcls : ∀ i,
            text_box_classes pattern None found ∅ i =
            if decide (Exists (in_match (len pattern) i) found)
            then ["char"; "found"] else ["char"]).
  { intros i. unfold text_box_classes, match_status, cur_text_idx. simpl.
    pose proof (elem_of_previously_found pattern found i) as Hprev.
    destruct (decide (Exists _ _)) as [He|He].
    - by rewrite bool_decide_eq_true_2 by by apply Hprev.
    - rewrite bool_decide_eq_false_2; [done|]. by rewrite Hprev. }
  split_and!.
  - destruct (render_visual_rows text pattern None found)
      as (current & Hcur & Hpage).
    by injection Hcur as <-.
  - rewrite pattern_boxes_map. apply Forall_forall.
    intros d ([i ch] & _ & Hd)%list_elem_of_omap. simpl in Hd.
    destruct (decide _); [|done]. by injection Hd as <-.
  - rewrite pattern_boxes_columns. simpl.
    apply clip_columns. unfold len. lia.
  - intros k ch Hk.
    rewrite text_boxes_map, list_lookup_fmap, lookup_enumerate, Hk. simpl.
    by rewrite Hcls.
  - intros ->. rewrite text_boxes_map. apply Forall_forall.
    intros d ([i ch] & -> & _)%list_elem_of_fmap. simpl.
    rewrite Hcls. destruct (decide (Exists _ _)) as [He|He]; [|done].
    by apply Exists_nil in He.
Qed.

(** X17: a step generated for a text and a pattern, rendered on the same
    text and pattern: the page [render_visual] returns shows the whole
    pattern, one box per pattern character, in the columns
    [shift + 1 .. shift + len(pattern)], none clipped; and the pattern box
    at [pattern_idx] stands in column [text_idx + 1], the column of the
    text box at [text_idx]. *)
Theorem generated_step_shows_pattern (text pattern : str) (found : list Z) :
  ∃ steps,
    naive_search_steps text pattern = Some steps ∧
    Forall (λ st,
              ∃ current,
                current_match_positions pattern (Some st) = Some current ∧
                render_visual text pattern (Some st) found =
                Some (page_of_rows (len text)
                        (pattern_labels text pattern (Some st) ++
                         pattern_boxes text pattern (Some st) ++
                         text_boxes text pattern (Some st) found current ++
                         text_labels text)) ∧
                grid_column <$> pattern_boxes text pattern (Some st) =
                  seqZ (shift st + 1) (len pattern) ∧
                length (pattern_boxes text pattern (Some st)) =
                  length pattern ∧
                (grid_column <$> pattern_boxes text pattern (Some st))
                  !! Z.to_nat (pattern_idx st) = Some (text_idx st + 1) ∧
                (grid_column <$> text_boxes text pattern (Some st) found current)
                  !! Z.to_nat (text_idx st) = Some (text_idx st + 1))
           steps.
Proof.
  eexists. split; [apply naive_search_steps_eq|].
  apply Forall_forall. intros st Hst.
  destruct (generated_in_bounds text pattern _ st
              (naive_search_steps_eq _ _) Hst) as (Hs & Hp & Ht).
  destruct (render_visual_rows text pattern (Some st) found)
    as (current & Hcur & Hpage).
  exists current. split; [done|]. split; [done|].
  assert (Hcols : grid_column <$> pattern_boxes text pattern (Some st) =
                  seqZ (shift st + 1) (len pattern)).
  { rewrite pattern_boxes_columns. simpl.
    apply filter_all, Forall_seqZ. lia. }
  split_and!.
  - exact Hcols.
  - rewrite <- (length_fmap grid_column), Hcols, length_seqZ.
    unfold len. lia.
  - rewrite Hcols, lookup_seqZ_lt by lia. f_equal. lia.
  - assert (Hlt : (Z.to_nat (text_idx st) < length text)%nat)
      by (unfold len in *; lia).
    destruct (lookup_lt_is_Some_2 text _ Hlt) as [ch Hch].
    rewrite text_boxes_map, !list_lookup_fmap, lookup_enumerate, Hch. simpl.
    f_equal. lia.
Qed.
